(** * Vocabulary extraction of the tweet monitor

    A shallow embedding of the [parseVocabulary] functions of
    [upload-sample-data.js] (the two versions of the serverless handler
    [api/check-tweets.js], and [twitter-monitor-server-env.js]), and the
    properties of the extraction heuristic proved about them.

    JavaScript strings are sequences of UTF-16 code units; the regular
    expressions of the source carry no [u] flag, so they work on code units,
    and so does this model. *)

From Stdlib Require Import Ascii String NArith List Bool Lia.
Import ListNotations.
Local Open Scope N_scope.

(** ** Strings *)

(** A code unit of a JavaScript string: a 16-bit value, kept as [N]. *)
Definition code_unit := N.
Definition jsstring := list code_unit.

(** *** String literals

    The literals of this file are written as Rocq strings, which hold the
    UTF-8 bytes of the source text; [js] turns them into the code units the
    JavaScript engine sees. *)

Fixpoint utf8_decode (pending : nat) (acc : N) (bs : list N) : list N :=
  match bs with
  | [] => []
  | b :: r =>
      match pending with
      | O =>
          if b <? 0x80 then b :: utf8_decode 0 0 r
          else if b <? 0xE0 then utf8_decode 1 (N.land b 0x1F) r
          else if b <? 0xF0 then utf8_decode 2 (N.land b 0x0F) r
          else utf8_decode 3 (N.land b 0x07) r
      | S k =>
          let acc' := acc * 64 + N.land b 0x3F in
          match k with
          | O => acc' :: utf8_decode 0 0 r
          | S _ => utf8_decode k acc' r
          end
      end
  end.

Definition utf16_units (cp : N) : list code_unit :=
  if cp <? 0x10000 then [cp]
  else
    let v := cp - 0x10000 in
    [0xD800 + N.shiftr v 10; 0xDC00 + N.land v 0x3FF].

Definition js (s : string) : jsstring :=
  flat_map utf16_units (utf8_decode 0 0 (map N_of_ascii (list_ascii_of_string s))).

(** The double quote, which the template literals of the source contain. *)
Definition dquote : jsstring := [34].

(** *** Character classes *)

Definition in_range (lo hi c : code_unit) : bool := (lo <=? c) && (c <=? hi).

(** [\s], and the characters [String.prototype.trim] removes: ECMAScript's
    WhiteSpace and LineTerminator. *)
Definition isSpace (c : code_unit) : bool :=
  in_range 9 13 c || (c =? 32) || (c =? 0xA0) || (c =? 0x1680)
  || in_range 0x2000 0x200A c || (c =? 0x2028) || (c =? 0x2029)
  || (c =? 0x202F) || (c =? 0x205F) || (c =? 0x3000) || (c =? 0xFEFF).

(** [\S] *)
Definition isNonSpace (c : code_unit) : bool := negb (isSpace c).

(** [\w] is [[A-Za-z0-9_]] *)
Definition isWord (c : code_unit) : bool :=
  in_range 97 122 c || in_range 65 90 c || in_range 48 57 c || (c =? 95).

(** [[a-zA-Z]] *)
Definition isLatin (c : code_unit) : bool :=
  in_range 97 122 c || in_range 65 90 c.

(** [[\u3040-\u309F\u30A0-\u30FF\u4E00-\u9FAF]]: Hiragana, Katakana, Kanji. *)
Definition isJapanese (c : code_unit) : bool :=
  in_range 0x3040 0x309F c || in_range 0x30A0 0x30FF c
  || in_range 0x4E00 0x9FAF c.

(** *** String methods *)

Fixpoint trimStart (s : jsstring) : jsstring :=
  match s with
  | [] => []
  | c :: r => if isSpace c then trimStart r else s
  end.

Fixpoint trimEnd (s : jsstring) : jsstring :=
  match s with
  | [] => []
  | c :: r =>
      match trimEnd r with
      | [] => if isSpace c then [] else [c]
      | t => c :: t
      end
  end.

(** [s.trim()] *)
Definition trim (s : jsstring) : jsstring := trimEnd (trimStart s).

(** [s.substring(0, i)] and [s.substring(i)], for [i] a [nat]. *)
Definition substring_to (i : nat) (s : jsstring) : jsstring := firstn i s.
Definition substring_from (i : nat) (s : jsstring) : jsstring := skipn i s.

(** A string is truthy when it is not empty. *)
Definition truthy (s : jsstring) : bool :=
  match s with [] => false | _ :: _ => true end.

(** ** Regular expressions *)

(** Length of the longest prefix of [s] in the class [p]: what a greedy
    [p*] takes when nothing after it can fail. *)
Fixpoint run (p : code_unit -> bool) (s : jsstring) : nat :=
  match s with
  | c :: r => if p c then S (run p r) else O
  | [] => O
  end.

Fixpoint strip_prefix (pat s : jsstring) : option jsstring :=
  match pat with
  | [] => Some s
  | p :: pat' =>
      match s with
      | c :: r => if c =? p then strip_prefix pat' r else None
      | [] => None
      end
  end.

(** A matcher answers, for the text that starts at the current position,
    the length of the match that starts there, if there is one. *)
Definition matcher := jsstring -> option nat.

(** [:\/\/\S+] at the head of [r]. *)
Definition match_url_tail (r : jsstring) : option nat :=
  match strip_prefix (js "://") r with
  | Some r' =>
      match run isNonSpace r' with
      | O => None
      | S n => Some (3 + S n)%nat
      end
  | None => None
  end.

(** [/https?:\/\/\S+/] at the head of [s]. The optional [s] is greedy: the
    matcher first takes it, and backtracks to the empty choice when the rest
    fails. *)
Definition match_url (s : jsstring) : option nat :=
  match strip_prefix (js "http") s with
  | Some r =>
      let with_s :=
        match r with
        | c :: r' => if c =? 115 then option_map S (match_url_tail r') else None
        | [] => None
        end in
      match with_s with
      | Some n => Some (4 + n)%nat
      | None => option_map (Nat.add 4) (match_url_tail r)
      end
  | None => None
  end.

(** [/@\w+/] and [/#\w+/] at the head of [s], [marker] being [@] or [#]. *)
Definition match_tag (marker : code_unit) (s : jsstring) : option nat :=
  match s with
  | c :: r =>
      if c =? marker then
        match run isWord r with
        | O => None
        | S n => Some (S (S n))
        end
      else None
  | [] => None
  end.

(** [s.replace(re, '')] for a global [re] whose matches are not empty: the
    text is scanned from the left, a match found at the current position is
    dropped and the scan goes on after it, a character at which no match
    starts is kept. [skip] counts the characters of the current match still
    to drop. *)
Fixpoint scan (m : matcher) (skip : nat) (s : jsstring) : jsstring :=
  match s with
  | [] => []
  | c :: r =>
      match skip with
      | S k => scan m k r
      | O =>
          match m s with
          | Some (S k) => scan m k r
          | _ => c :: scan m 0 r
          end
      end
  end.

Definition replace_all (m : matcher) (s : jsstring) : jsstring := scan m 0 s.

Definition at_sign : code_unit := 64.
Definition hash_sign : code_unit := 35.

Definition remove_urls : jsstring -> jsstring := replace_all match_url.
Definition remove_mentions : jsstring -> jsstring := replace_all (match_tag at_sign).
Definition remove_hashtags : jsstring -> jsstring := replace_all (match_tag hash_sign).

(** The result of [s.match(re)] for a [re] without the global flag. *)
Record MatchResult := mkMatch { matched : jsstring; index : nat }.

(** The first character of [s] in the class [p], with its position. *)
Fixpoint search (p : code_unit -> bool) (s : jsstring) : option MatchResult :=
  match s with
  | [] => None
  | c :: r =>
      if p c then Some (mkMatch [c] 0)
      else option_map (fun m => mkMatch (matched m) (S (index m))) (search p r)
  end.

(** [re.test(s)] for a one-character class. *)
Definition test (p : code_unit -> bool) (s : jsstring) : bool := existsb p s.

(** ** Effects

    The functions run in the module of the handler: they can write to the
    console and they have the module's variable [lastTweetId] in scope. A
    property read on [null] raises a [TypeError]. *)

Inductive JsError := TypeError.

Inductive Completion (A : Type) :=
| Normal (a : A)
| Throw (e : JsError).
Arguments Normal {A} a.
Arguments Throw {A} e.

Record World := mkWorld {
  lastTweetId : option jsstring;
  console : list jsstring
}.

Definition JS (A : Type) := World -> Completion A * World.

Definition ret {A} (a : A) : JS A := fun w => (Normal a, w).

Definition throw {A} (e : JsError) : JS A := fun w => (Throw e, w).

Definition bind {A B} (m : JS A) (f : A -> JS B) : JS B :=
  fun w =>
    match m w with
    | (Normal a, w') => f a w'
    | (Throw e, w') => (Throw e, w')
    end.

Notation "x <- m ;; k" := (bind m (fun x => k))
  (at level 61, m at next level, right associativity).
Notation "m ;; k" := (bind m (fun _ => k))
  (at level 61, right associativity).

(** [console.log(msg)] *)
Definition console_log (msg : jsstring) : JS unit :=
  fun w => (Normal tt, mkWorld (lastTweetId w) (console w ++ [msg])).

(** [m.index], for [m] a match result or [null]. *)
Definition get_index (m : option MatchResult) : JS nat :=
  match m with
  | Some r => ret (index r)
  | None => throw TypeError
  end.

(** ** Data model *)

Record VocabularyPair := mkPair { english : jsstring; japanese : jsstring }.

(** The three removals and the trim every version of [parseVocabulary]
    starts with. *)
Definition removals (text : jsstring) : jsstring :=
  remove_hashtags (remove_mentions (remove_urls text)).

Definition cleanText (text : jsstring) : jsstring := trim (removals text).

(** ** [api/check-tweets.js], the version that splits at a space *)

Module CheckTweetsFirst.

(** [.] matches every character but a LineTerminator. *)
Definition isLineTerminator (c : code_unit) : bool :=
  (c =? 10) || (c =? 13) || (c =? 0x2028) || (c =? 0x2029).

Definition isDot (c : code_unit) : bool := negb (isLineTerminator c).

(** [(.+)$] at the head of [s]: the greedy group has to reach the end of the
    text. *)
Definition rest_of_line (s : jsstring) : bool := truthy s && forallb isDot s.

(** [\s+(.+)$] at the head of [r], which starts with a run of [j] or more
    white spaces: the greedy [\s+] takes [j] of them and gives them back one
    by one while the rest fails. Answers the second group. *)
Fixpoint spaces_then_rest (j : nat) (r : jsstring) : option jsstring :=
  match j with
  | O => None
  | S j' =>
      if rest_of_line (skipn j r) then Some (skipn j r)
      else spaces_then_rest j' r
  end.

Definition sep_many (r : jsstring) : option jsstring :=
  spaces_then_rest (run isSpace r) r.

(** [[　\s](.+)$] at the head of [r]. *)
Definition sep_one (r : jsstring) : option jsstring :=
  match r with
  | c :: r' => if isSpace c && rest_of_line r' then Some r' else None
  | [] => None
  end.

(** [^(.+?)] followed by [sep]: the lazy group, [group1] so far, takes one
    more character at a time until the rest matches. Answers both
    groups. *)
Fixpoint lazy_group (sep : jsstring -> option jsstring) (group1 s : jsstring)
  : option (jsstring * jsstring) :=
  match s with
  | [] => None
  | c :: r =>
      if isDot c then
        match sep r with
        | Some group2 => Some (group1 ++ [c], group2)
        | None => lazy_group sep (group1 ++ [c]) r
        end
      else None
  end.

(** The three patterns; [[\s　]] is [\s], which holds the full-width
    space. *)
Definition patterns : list (jsstring -> option (jsstring * jsstring)) :=
  [ lazy_group sep_many [];
    lazy_group sep_many [];
    lazy_group sep_one [] ].

Fixpoint try_patterns (ps : list (jsstring -> option (jsstring * jsstring)))
  (cleanText : jsstring) : option VocabularyPair :=
  match ps with
  | [] => None
  | pattern :: ps' =>
      match pattern cleanText with
      | Some (m1, m2) =>
          if truthy m1 && truthy m2 then
            let part1 := trim m1 in
            let part2 := trim m2 in
            let hasEnglish := test isLatin part1 in
            let hasJapanese := test isJapanese part2 in
            if hasEnglish && hasJapanese then Some (mkPair part1 part2)
            else try_patterns ps' cleanText
          else try_patterns ps' cleanText
      | None => try_patterns ps' cleanText
      end
  end.

Definition parseVocabulary (text : jsstring) : JS (option VocabularyPair) :=
  let cleanText := cleanText text in
  ret (try_patterns patterns cleanText).

End CheckTweetsFirst.

(** ** [api/check-tweets.js], the version that splits at the first Japanese
    character *)

Module CheckTweets.

Definition msg_no_japanese (clean : jsstring) : jsstring :=
  js "⚠️  No Japanese characters found in: " ++ dquote ++ clean ++ dquote.

Definition msg_parsed (englishPart japanesePart : jsstring) : jsstring :=
  js "✅ Parsed: " ++ dquote ++ englishPart ++ dquote ++ js " → "
  ++ dquote ++ japanesePart ++ dquote.

Definition msg_invalid (englishPart japanesePart : jsstring) : jsstring :=
  js "⚠️  Invalid format: english=" ++ dquote ++ englishPart ++ dquote
  ++ js ", japanese=" ++ dquote ++ japanesePart ++ dquote.

Definition parseVocabulary (text : jsstring) : JS (option VocabularyPair) :=
  let cleanText := cleanText text in
  let japaneseStartMatch := search isJapanese cleanText in
  match japaneseStartMatch with
  | None =>
      console_log (msg_no_japanese cleanText) ;;
      ret None
  | Some _ =>
      japaneseStartIndex <- get_index japaneseStartMatch ;;
      let englishPart := trim (substring_to japaneseStartIndex cleanText) in
      let japanesePart := trim (substring_from japaneseStartIndex cleanText) in
      let hasEnglish := test isLatin englishPart in
      let hasJapanese := test isJapanese japanesePart in
      if hasEnglish && hasJapanese && truthy englishPart && truthy japanesePart
      then
        console_log (msg_parsed englishPart japanesePart) ;;
        ret (Some (mkPair englishPart japanesePart))
      else
        console_log (msg_invalid englishPart japanesePart) ;;
        ret None
  end.

End CheckTweets.

(** ** [twitter-monitor-server-env.js] *)

Module MonitorServer.

Definition parseVocabulary (text : jsstring) : JS (option VocabularyPair) :=
  let cleanText := cleanText text in
  let hasEnglish := test isLatin cleanText in
  let hasJapanese := test isJapanese cleanText in
  if negb hasEnglish || negb hasJapanese then ret None
  else
    let japaneseMatch := search isJapanese cleanText in
    match japaneseMatch with
    | None => ret None
    | Some _ =>
        japaneseStart <- get_index japaneseMatch ;;
        let english := trim (substring_to japaneseStart cleanText) in
        let japanese := trim (substring_from japaneseStart cleanText) in
        if truthy english && truthy japanese
        then ret (Some (mkPair english japanese))
        else ret None
    end.

End MonitorServer.

(** ** The outside of the scripts

    The callers of [parseVocabulary] talk to the file system, to the Twitter
    API, to the Appwrite database and to the clock. None of these is code
    of the repository: they are taken as an interface, and what is proved
    about the callers holds for every implementation of it. Awaited calls
    run in sequence; a call changes the state of the outside, and resolves
    or rejects. *)

(** An [Error] object: its message and, where the Appwrite SDK sets one,
    its code. *)
Record ErrorObject := mkError { err_message : jsstring; err_code : option N }.

(** [new Error(msg)] *)
Definition new_Error (msg : jsstring) : ErrorObject := mkError msg None.

(** How a call of the outside settles: with a value, or with an exception
    (a rejected promise). *)
Inductive Settled (A : Type) :=
| Fulfilled (a : A)
| Failed (e : ErrorObject).
Arguments Fulfilled {A} a.
Arguments Failed {A} e.

(** How a function of the scripts ends: with a value, with an exception (a
    rejected promise), or with the end of the process ([process.exit]). *)
Inductive Outcome (A : Type) :=
| Resolved (a : A)
| Rejected (e : ErrorObject)
| Exited (exit_code : N).
Arguments Resolved {A} a.
Arguments Rejected {A} e.
Arguments Exited {A} exit_code.

(** A tweet of the answer of the API, with the two fields the scripts read,
    both present and strings. An answer in which a tweet lacks its [text] is
    not represented: the scripts pass [tweet.text] to [parseVocabulary] as it
    is, whose first property read fails on [undefined]. *)
Record Tweet := mkTweet { tweet_id : jsstring; tweet_text : jsstring }.

(** The parsed body of the answer of the API: [data] may be missing. *)
Record TweetsData := mkTweetsData { tweets_data : option (list Tweet) }.

(** The answer of [fetch], with the results of its [text()] and [json()]. *)
Record Response := mkResponse {
  resp_ok : bool;
  resp_status : N;
  resp_text : Settled jsstring;
  resp_json : Settled TweetsData
}.

(** [Query.equal(attribute, value)] and [Query.limit(n)] *)
Inductive Query :=
| Query_equal (attribute value : jsstring)
| Query_limit (n : N).

(** An argument of [console.error]. *)
Inductive Arg :=
| AStr (s : jsstring)
| ANum (n : N)
| AErr (e : ErrorObject).

Class Outside := {
  Env : Type;
  (** [process.env[key]] *)
  process_env : jsstring -> option jsstring;
  (** [fs.existsSync(path)] *)
  fs_existsSync : jsstring -> Env -> bool;
  (** [fs.readFileSync(path, 'utf8')] *)
  fs_readFileSync : jsstring -> Env -> Settled jsstring * Env;
  (** [fs.writeFileSync(path, content)] *)
  fs_writeFileSync : jsstring -> jsstring -> Env -> Settled unit * Env;
  (** [fetch(url, {headers})] *)
  fetch : jsstring -> list (jsstring * jsstring) -> Env -> Settled Response * Env;
  (** [new Client().setEndpoint(e).setProject(p).setKey(k)] and
      [new Databases(client)] *)
  new_Databases :
    jsstring -> option jsstring -> option jsstring -> Env -> Settled unit * Env;
  (** [databases.listDocuments(databaseId, collectionId, queries)], answering
      the [total] of the list *)
  listDocuments :
    option jsstring -> option jsstring -> list Query -> Env -> Settled nat * Env;
  (** [databases.createDocument(databaseId, collectionId, ID.unique(), data)] *)
  createDocument :
    option jsstring -> option jsstring -> VocabularyPair -> Env -> Settled unit * Env;
  (** [Date.now()] *)
  Date_now : Env -> N * Env;
  (** [new Date(t).toISOString()] *)
  toISOString : N -> jsstring;
  (** [new URLSearchParams(entries).toString()] *)
  URLSearchParams_toString : list (jsstring * jsstring) -> jsstring;
  (** The [Error] object the engine throws for a [JsError]. *)
  native_error : JsError -> ErrorObject
}.

(** The state a script runs in: the outside, the module with its standard
    output, and the calls of [console.error]. *)
Record Machine `{Outside} := mkMachine {
  outside : Env;
  world : World;
  stderr : list (list Arg)
}.
Arguments mkMachine {_} _ _ _.
Arguments outside {_} _.
Arguments world {_} _.
Arguments stderr {_} _.

Section Async.

Context `{Outside}.

Definition Async (A : Type) := Machine -> Outcome A * Machine.

Definition aret {A} (a : A) : Async A := fun st => (Resolved a, st).

Definition athrow {A} (e : ErrorObject) : Async A := fun st => (Rejected e, st).

(** Sequencing, also across an [await]: the continuation starts in the state
    the first computation left. A run is that of one call of a function taken
    by itself; what happens to the outside while a call is awaited is what
    the oracle of that call does, so another poll or request that overlaps
    this one shows only as an oracle that changes more than its own call
    would. *)
Definition abind {A B} (m : Async A) (f : A -> Async B) : Async B :=
  fun st =>
    match m st with
    | (Resolved a, st') => f a st'
    | (Rejected e, st') => (Rejected e, st')
    | (Exited c, st') => (Exited c, st')
    end.

(** [try { m } catch (error) { handler }] *)
Definition try_catch {A} (m : Async A) (handler : ErrorObject -> Async A) : Async A :=
  fun st =>
    match m st with
    | (Rejected e, st') => handler e st'
    | r => r
    end.

(** [process.exit(code)] *)
Definition process_exit {A} (c : N) : Async A := fun st => (Exited c, st).

(** A function of the module, run in the module. *)
Definition lift {A} (m : JS A) : Async A :=
  fun st =>
    match m (world st) with
    | (Normal a, w) => (Resolved a, mkMachine (outside st) w (stderr st))
    | (Throw e, w) => (Rejected (native_error e), mkMachine (outside st) w (stderr st))
    end.

(** [console.log(msg)] *)
Definition log (msg : jsstring) : Async unit := lift (console_log msg).

(** [console.error(args...)] *)
Definition console_error (args : list Arg) : Async unit :=
  fun st => (Resolved tt, mkMachine (outside st) (world st) (stderr st ++ [args])).

(** A call of the outside: one that can fail, one that cannot, and one that
    only looks. *)
Definition settle {A} (r : Settled A) : Outcome A :=
  match r with
  | Fulfilled a => Resolved a
  | Failed e => Rejected e
  end.

Definition call {A} (f : Env -> Settled A * Env) : Async A :=
  fun st =>
    let (r, env) := f (outside st) in
    (settle r, mkMachine env (world st) (stderr st)).

(** [await p] for a promise [p] that is settled already. *)
Definition await {A} (p : Settled A) : Async A := fun st => (settle p, st).

Definition call_total {A} (f : Env -> A * Env) : Async A :=
  fun st =>
    let (a, env) := f (outside st) in
    (Resolved a, mkMachine env (world st) (stderr st)).

Definition observe {A} (f : Env -> A) : Async A :=
  fun st => (Resolved (f (outside st)), st).

End Async.

Notation "x <~ m ;; k" := (abind m (fun x => k))
  (at level 61, m at next level, right associativity).
Notation "m ;;; k" := (abind m (fun _ => k))
  (at level 61, right associativity).

(** A value that is a string or [undefined]: its truth value, and its text
    in a template literal. *)
Definition truthy_opt (v : option jsstring) : bool :=
  match v with
  | Some s => truthy s
  | None => false
  end.

Definition template (v : option jsstring) : jsstring :=
  match v with
  | Some s => s
  | None => js "undefined"
  end.

(** [v || d] *)
Definition or_else (v : option jsstring) (d : jsstring) : jsstring :=
  match v with
  | Some s => if truthy s then s else d
  | None => d
  end.

(** A number that is a natural number below [10^21], in a template literal:
    its decimal digits. *)
Fixpoint digits (d : Decimal.uint) : jsstring :=
  match d with
  | Decimal.Nil => []
  | Decimal.D0 d => 48 :: digits d
  | Decimal.D1 d => 49 :: digits d
  | Decimal.D2 d => 50 :: digits d
  | Decimal.D3 d => 51 :: digits d
  | Decimal.D4 d => 52 :: digits d
  | Decimal.D5 d => 53 :: digits d
  | Decimal.D6 d => 54 :: digits d
  | Decimal.D7 d => 55 :: digits d
  | Decimal.D8 d => 56 :: digits d
  | Decimal.D9 d => 57 :: digits d
  end.

Definition Number_toString (n : N) : jsstring := digits (N.to_uint n).

(** [s.replace(c, d)] for one-character strings [c] and [d]: the first [c]
    is replaced. *)
Fixpoint replace_first (c d : code_unit) (s : jsstring) : jsstring :=
  match s with
  | [] => []
  | x :: r => if x =? c then d :: r else x :: replace_first c d r
  end.

(** [a === b] for two strings *)
Fixpoint string_eqb (a b : jsstring) : bool :=
  match a, b with
  | [], [] => true
  | x :: a', y :: b' => (x =? y) && string_eqb a' b'
  | _, _ => false
  end.

(** The line feed of the string literals. *)
Definition LF : jsstring := [10].


(** ** [twitter-monitor-server-env.js], the polling *)

Module Server.

Record Appwrite := mkAppwrite {
  endpoint : jsstring;
  projectId : option jsstring;
  apiKey : option jsstring;
  databaseId : option jsstring;
  collectionId : option jsstring
}.

Record Twitter := mkTwitter {
  bearerToken : option jsstring;
  userId : option jsstring;
  username : jsstring
}.

(** [CONFIG], without [checkInterval]: a number read by [parseInt], which
    only [startMonitoring] uses. *)
Record Config := mkConfig {
  appwrite : Appwrite;
  twitter : Twitter;
  lastTweetIdFile : jsstring
}.

(** What [uploadToAppwrite] returns. *)
Record UploadResult := mkResult { status : jsstring; error : option jsstring }.

(** The counters of [monitorTweets]. *)
Record Counts := mkCounts { uploadCount : nat; existsCount : nat; skipCount : nat }.

Section WithOutside.

Context `{Outside}.

Definition CONFIG : Config :=
  mkConfig
    (mkAppwrite
       (or_else (process_env (js "APPWRITE_ENDPOINT")) (js "https://cloud.appwrite.io/v1"))
       (process_env (js "APPWRITE_PROJECT_ID"))
       (process_env (js "APPWRITE_API_KEY"))
       (process_env (js "APPWRITE_DATABASE_ID"))
       (process_env (js "APPWRITE_COLLECTION_ID")))
    (mkTwitter
       (process_env (js "TWITTER_BEARER_TOKEN"))
       (process_env (js "TWITTER_USER_ID"))
       (or_else (process_env (js "TWITTER_USERNAME")) (js "eitangos")))
    (js "./last_tweet_id.txt").



Definition getLastTweetId : Async (option jsstring) :=
  try_catch
    (exists_ <~ observe (fs_existsSync (lastTweetIdFile CONFIG)) ;;
     if exists_ : bool then
       content <~ call (fs_readFileSync (lastTweetIdFile CONFIG)) ;;
       aret (Some (trim content))
     else aret None)
    (fun error =>
       console_error [AStr (js "Error reading last tweet ID:"); AErr error] ;;;
       aret None).

Definition saveLastTweetId (tweetId : jsstring) : Async unit :=
  try_catch
    (call (fs_writeFileSync (lastTweetIdFile CONFIG) tweetId))
    (fun error =>
       console_error [AStr (js "Error saving last tweet ID:"); AErr error]).

(** The entries of the [URLSearchParams] of [fetchRecentTweets]. *)
Definition params (sinceId : option jsstring) : list (jsstring * jsstring) :=
  [ (js "max_results", js "10"); (js "tweet.fields", js "created_at") ]
  ++ match sinceId with
     | Some id => if truthy id then [(js "since_id", id)] else []
     | None => []
     end.

Definition fetchRecentTweets (sinceId : option jsstring) : Async (list Tweet) :=
  let url :=
    js "https://api.twitter.com/2/users/" ++ template (userId (twitter CONFIG))
    ++ js "/tweets" in
  let params := params sinceId in
  try_catch
    (response <~ call (fetch (url ++ js "?" ++ URLSearchParams_toString params)
                         [ (js "Authorization",
                            js "Bearer " ++ template (bearerToken (twitter CONFIG)));
                           (js "User-Agent", js "v2RecentTweetsJS") ]) ;;
     if negb (resp_ok response) then
       errorText <~ await (resp_text response) ;;
       athrow (new_Error (js "Twitter API error: " ++ Number_toString (resp_status response)
                          ++ js " - " ++ errorText))
     else
       data <~ await (resp_json response) ;;
       aret match tweets_data data with
            | Some tweets => tweets
            | None => []
            end)
    (fun error =>
       console_error [AStr (js "Error fetching tweets:"); AStr (err_message error)] ;;;
       aret []).

Definition uploadToAppwrite (english japanese : jsstring) : Async UploadResult :=
  try_catch
    (existing <~ call (listDocuments (databaseId (appwrite CONFIG))
                         (collectionId (appwrite CONFIG))
                         [Query_equal (js "english") english]) ;;
     if Nat.ltb 0 existing then
       log (js "   ℹ️  Already exists: " ++ english) ;;;
       aret (mkResult (js "exists") None)
     else
       call (createDocument (databaseId (appwrite CONFIG))
               (collectionId (appwrite CONFIG))
               (mkPair english japanese)) ;;;
       log (js "   ✅ Uploaded: " ++ english ++ js " → " ++ japanese) ;;;
       aret (mkResult (js "uploaded") None))
    (fun error =>
       console_error [AStr (js "   ❌ Error: " ++ err_message error)] ;;;
       aret (mkResult (js "error") (Some (err_message error)))).

(** The body of the loop of [monitorTweets], for one tweet. *)
Definition process_tweet (tweet : Tweet) (c : Counts) : Async Counts :=
  log (js "📝 Tweet: " ++ dquote ++ tweet_text tweet ++ dquote) ;;;
  vocabulary <~ lift (MonitorServer.parseVocabulary (tweet_text tweet)) ;;
  c' <~ match vocabulary with
        | Some v =>
            result <~ uploadToAppwrite (english v) (japanese v) ;;
            if string_eqb (status result) (js "uploaded")
            then aret (mkCounts (S (uploadCount c)) (existsCount c) (skipCount c))
            else if string_eqb (status result) (js "exists")
            then aret (mkCounts (uploadCount c) (S (existsCount c)) (skipCount c))
            else aret c
        | None =>
            log (js "   ⏭️  Not vocabulary format, skipping.") ;;;
            aret (mkCounts (uploadCount c) (existsCount c) (S (skipCount c)))
        end ;;
  saveLastTweetId (tweet_id tweet) ;;;
  aret c'.

(** The loop of [monitorTweets]. *)
Fixpoint process_tweets (sortedTweets : list Tweet) (c : Counts) : Async Counts :=
  match sortedTweets with
  | [] => aret c
  | tweet :: rest =>
      c' <~ process_tweet tweet c ;;
      process_tweets rest c'
  end.

Definition monitorTweets : Async unit :=
  now <~ call_total Date_now ;;
  let timestamp := substring_to 19 (replace_first 84 32 (toISOString now)) in
  log (LF ++ js "🔍 [" ++ timestamp ++ js "] Checking for new tweets...") ;;;
  lastTweetId <~ getLastTweetId ;;
  tweets <~ fetchRecentTweets lastTweetId ;;
  if Nat.eqb (length tweets) 0 then
    log (js "   No new tweets found.")
  else
    log (js "   Found " ++ Number_toString (N.of_nat (length tweets))
         ++ js " new tweet(s)" ++ LF) ;;;
    let sortedTweets := rev tweets in
    c <~ process_tweets sortedTweets (mkCounts 0 0 0) ;;
    log (LF ++ js "📊 Summary: ✅ " ++ Number_toString (N.of_nat (uploadCount c))
         ++ js " new | ℹ️ " ++ Number_toString (N.of_nat (existsCount c))
         ++ js " existing | ⏭️ " ++ Number_toString (N.of_nat (skipCount c))
         ++ js " skipped").

Definition testConnection : Async bool :=
  try_catch
    (log (js "🔌 Testing Appwrite connection...") ;;;
     response <~ call (listDocuments (databaseId (appwrite CONFIG))
                         (collectionId (appwrite CONFIG)) [Query_limit 1]) ;;
     log (js "✅ Appwrite connection successful!") ;;;
     log (js "   Current vocabulary count: " ++ Number_toString (N.of_nat response) ++ LF) ;;;
     aret true)
    (fun error =>
       console_error [AStr (js "❌ Appwrite connection failed:"); AStr (err_message error)] ;;;
       aret false).

End WithOutside.

End Server.

(** ** [api/check-tweets.js], the handler

    The two versions of the file differ in their [parseVocabulary], in the
    number of tweets they ask for, and in one line of the log. *)

Module Handler.

Inductive Version := First | Second.

Definition parseVocabulary (v : Version) : jsstring -> JS (option VocabularyPair) :=
  match v with
  | First => CheckTweetsFirst.parseVocabulary
  | Second => CheckTweets.parseVocabulary
  end.

Definition max_results (v : Version) : jsstring :=
  match v with
  | First => js "5"
  | Second => js "15"
  end.

Record Config := mkConfig {
  endpoint : jsstring;
  projectId : option jsstring;
  apiKey : option jsstring;
  databaseId : option jsstring;
  collectionId : option jsstring;
  twitterBearerToken : option jsstring;
  twitterUserId : option jsstring;
  twitterUsername : jsstring
}.

(** The request, with the field the handler reads. *)
Record Request := mkRequest { method : jsstring }.

(** An entry of [results]. *)
Record Result := mkResult {
  result_english : jsstring;
  result_japanese : jsstring;
  result_status : jsstring;
  result_error : option jsstring
}.

(** The objects passed to [res.json]. *)
Inductive Body :=
| RateLimited (error message nextCheck : jsstring)
| NoTweets (message : jsstring) (checked : bool) (uploaded : nat)
| Summary (success : bool) (timestamp username : jsstring)
    (tweetsChecked uploaded skipped errors : nat) (results : list Result)
| Fatal (error timestamp : jsstring) (success : bool).

(** The response object: the headers set, in the order of the calls, the
    status, the body, and whether the response was sent. *)
Record Res := mkRes {
  headers : list (jsstring * jsstring);
  statusCode : option N;
  body : option Body;
  sent : bool
}.

(** [res.setHeader(name, value)], [res.status(code)], [res.json(body)] and
    [res.end()] *)
Definition setHeader (name value : jsstring) (res : Res) : Res :=
  mkRes (headers res ++ [(name, value)]) (statusCode res) (body res) (sent res).

Definition status (c : N) (res : Res) : Res :=
  mkRes (headers res) (Some c) (body res) (sent res).

Definition json (b : Body) (res : Res) : Res :=
  mkRes (headers res) (statusCode res) (Some b) true.

Definition end_ (res : Res) : Res :=
  mkRes (headers res) (statusCode res) (body res) true.

(** The counters and the results of the loop. *)
Record Tally := mkTally {
  uploadedCount : nat;
  skippedCount : nat;
  errorCount : nat;
  results : list Result
}.

Section WithOutside.

Context `{Outside}.

(** [JSON.stringify(summary, null, 2)] *)
Variable JSON_stringify : Body -> jsstring.

Variable version : Version.

Definition CONFIG : Config :=
  mkConfig
    (or_else (process_env (js "APPWRITE_ENDPOINT")) (js "https://cloud.appwrite.io/v1"))
    (process_env (js "APPWRITE_PROJECT_ID"))
    (process_env (js "APPWRITE_API_KEY"))
    (process_env (js "APPWRITE_DATABASE_ID"))
    (process_env (js "APPWRITE_COLLECTION_ID"))
    (process_env (js "TWITTER_BEARER_TOKEN"))
    (process_env (js "TWITTER_USER_ID"))
    (or_else (process_env (js "TWITTER_USERNAME")) (js "eitangos")).

(** The body of the loop over the tweets. *)
Definition process_tweet (tweet : Tweet) (t : Tally) : Async Tally :=
  match version with
  | First => aret tt
  | Second =>
      log (LF ++ js "📝 Processing tweet: " ++ dquote ++ tweet_text tweet ++ dquote)
  end ;;;
  parsed <~ lift (parseVocabulary version (tweet_text tweet)) ;;
  match parsed with
  | None =>
      log (js "⏭️  Skipped (no vocabulary): " ++ dquote ++ tweet_text tweet ++ dquote) ;;;
      aret (mkTally (uploadedCount t) (S (skippedCount t)) (errorCount t) (results t))
  | Some parsed =>
      log (js "📝 Found: " ++ english parsed ++ js " → " ++ japanese parsed) ;;;
      try_catch
        (existing <~ call (listDocuments (databaseId CONFIG) (collectionId CONFIG)
                             [Query_equal (js "english") (english parsed)]) ;;
         if Nat.ltb 0 existing then
           log (js "ℹ️  Already exists: " ++ english parsed) ;;;
           aret (mkTally (uploadedCount t) (S (skippedCount t)) (errorCount t)
                   (results t
                    ++ [mkResult (english parsed) (japanese parsed) (js "existing") None]))
         else
           call (createDocument (databaseId CONFIG) (collectionId CONFIG)
                   (mkPair (english parsed) (japanese parsed))) ;;;
           log (js "✅ Uploaded: " ++ english parsed ++ js " → " ++ japanese parsed) ;;;
           aret (mkTally (S (uploadedCount t)) (skippedCount t) (errorCount t)
                   (results t
                    ++ [mkResult (english parsed) (japanese parsed) (js "uploaded") None])))
        (fun error =>
           console_error [AStr (js "❌ Error uploading " ++ english parsed ++ js ":");
                          AStr (err_message error)] ;;;
           aret (mkTally (uploadedCount t) (skippedCount t) (S (errorCount t))
                   (results t
                    ++ [mkResult (english parsed) (japanese parsed) (js "error")
                          (Some (err_message error))])))
  end.

(** The loop over the tweets. *)
Fixpoint process_tweets (tweets : list Tweet) (t : Tally) : Async Tally :=
  match tweets with
  | [] => aret t
  | tweet :: rest =>
      t' <~ process_tweet tweet t ;;
      process_tweets rest t'
  end.

Definition handler (req : Request) (res : Res) : Async Res :=
  let res := setHeader (js "Access-Control-Allow-Origin") (js "*") res in
  let res := setHeader (js "Access-Control-Allow-Methods") (js "GET, POST, OPTIONS") res in
  if string_eqb (method req) (js "OPTIONS") then aret (end_ (status 200 res))
  else
    log (js "🔍 Starting Twitter check...") ;;;
    try_catch
      ((if negb (truthy_opt (twitterBearerToken CONFIG))
           || negb (truthy_opt (twitterUserId CONFIG))
        then athrow (new_Error (js "Missing Twitter credentials"))
        else aret tt) ;;;
       (if negb (truthy_opt (projectId CONFIG)) || negb (truthy_opt (apiKey CONFIG))
           || negb (truthy_opt (databaseId CONFIG))
           || negb (truthy_opt (collectionId CONFIG))
        then athrow (new_Error (js "Missing Appwrite credentials"))
        else aret tt) ;;;
       let twitterUrl :=
         js "https://api.twitter.com/2/users/" ++ template (twitterUserId CONFIG)
         ++ js "/tweets?max_results=" ++ max_results version
         ++ js "&tweet.fields=created_at" in
       log (js "📡 Fetching tweets from Twitter...") ;;;
       twitterResponse <~
         call (fetch twitterUrl
                 [ (js "Authorization",
                    js "Bearer " ++ template (twitterBearerToken CONFIG));
                   (js "User-Agent", js "EITANGOS-Monitor/1.0") ]) ;;
       if negb (resp_ok twitterResponse) then
         errorText <~ await (resp_text twitterResponse) ;;
         console_error [AStr (js "❌ Twitter API error:");
                        ANum (resp_status twitterResponse); AStr errorText] ;;;
         if resp_status twitterResponse =? 429 then
           now <~ call_total Date_now ;;
           aret (json (RateLimited (js "Rate limited")
                         (js "Too many requests. Please try again in 15 minutes.")
                         (toISOString (now + 15 * 60 * 1000)))
                   (status 429 res))
         else
           athrow (new_Error (js "Twitter API error: "
                              ++ Number_toString (resp_status twitterResponse)))
       else
         tweetsData <~ await (resp_json twitterResponse) ;;
         log (js "📊 Received "
              ++ Number_toString
                   (N.of_nat match tweets_data tweetsData with
                             | Some tweets => length tweets
                             | None => 0
                             end)
              ++ js " tweets") ;;;
         match tweets_data tweetsData with
         | None | Some [] =>
             aret (json (NoTweets (js "No tweets found") true 0) (status 200 res))
         | Some tweets =>
             call (new_Databases (endpoint CONFIG) (projectId CONFIG) (apiKey CONFIG)) ;;;
             log (js "🔌 Connected to Appwrite") ;;;
             t <~ process_tweets tweets (mkTally 0 0 0 []) ;;
             now <~ call_total Date_now ;;
             let summary :=
               Summary true (toISOString now) (twitterUsername CONFIG)
                 (length tweets) (uploadedCount t) (skippedCount t) (errorCount t)
                 (results t) in
             log (js "📊 Summary:" ++ js " " ++ JSON_stringify summary) ;;;
             aret (json summary (status 200 res))
         end)
      (fun error =>
         console_error [AStr (js "💥 Fatal error:"); AErr error] ;;;
         now <~ call_total Date_now ;;
         aret (json (Fatal (err_message error) (toISOString now) false)
                 (status 500 res))).

End WithOutside.

End Handler.

(** ** [upload-sample-data.js], the upload of the sample data *)

Module UploadSampleData.

Record Config := mkConfig {
  endpoint : jsstring;
  projectId : option jsstring;
  apiKey : option jsstring;
  databaseId : option jsstring;
  collectionId : option jsstring
}.

Definition sampleData : list VocabularyPair :=
  [
    mkPair (js "make a shift") (js "シフトの作成");
    mkPair (js "computer") (js "コンピューター");
    mkPair (js "cat") (js "猫");
    mkPair (js "school trip") (js "課外活動");
    mkPair (js "dog") (js "犬");
    mkPair (js "bird") (js "鳥");
    mkPair (js "fish") (js "魚");
    mkPair (js "apple") (js "リンゴ");
    mkPair (js "orange") (js "オレンジ");
    mkPair (js "book") (js "本");
    mkPair (js "pen") (js "ペン");
    mkPair (js "desk") (js "机");
    mkPair (js "chair") (js "椅子");
    mkPair (js "water") (js "水");
    mkPair (js "coffee") (js "コーヒー");
    mkPair (js "tea") (js "お茶");
    mkPair (js "morning") (js "朝");
    mkPair (js "afternoon") (js "午後");
    mkPair (js "evening") (js "夕方");
    mkPair (js "night") (js "夜");
    mkPair (js "today") (js "今日");
    mkPair (js "tomorrow") (js "明日");
    mkPair (js "yesterday") (js "昨日");
    mkPair (js "week") (js "週");
    mkPair (js "month") (js "月");
    mkPair (js "year") (js "年");
    mkPair (js "time") (js "時間");
    mkPair (js "work") (js "仕事");
    mkPair (js "study") (js "勉強");
    mkPair (js "friend") (js "友達");
    mkPair (js "family") (js "家族");
    mkPair (js "house") (js "家");
    mkPair (js "car") (js "車");
    mkPair (js "train") (js "電車");
    mkPair (js "station") (js "駅");
    mkPair (js "school") (js "学校");
    mkPair (js "office") (js "オフィス");
    mkPair (js "restaurant") (js "レストラン");
    mkPair (js "shop") (js "店");
    mkPair (js "park") (js "公園");
    mkPair (js "hospital") (js "病院");
    mkPair (js "bank") (js "銀行");
    mkPair (js "phone") (js "電話");
    mkPair (js "email") (js "メール");
    mkPair (js "meeting") (js "会議");
    mkPair (js "project") (js "プロジェクト");
    mkPair (js "task") (js "タスク");
    mkPair (js "deadline") (js "締め切り");
    mkPair (js "budget") (js "予算");
    mkPair (js "plan") (js "計画")
  ].

Record Counts := mkCounts { successCount : nat; errorCount : nat }.

Section WithOutside.

Context `{Outside}.

Definition CONFIG : Config :=
  mkConfig
    (or_else (process_env (js "APPWRITE_ENDPOINT")) (js "https://cloud.appwrite.io/v1"))
    (process_env (js "APPWRITE_PROJECT_ID"))
    (process_env (js "APPWRITE_API_KEY"))
    (process_env (js "APPWRITE_DATABASE_ID"))
    (process_env (js "APPWRITE_COLLECTION_ID")).

(** The body of the loop of [uploadData]; the wait of 100 ms after an upload
    does nothing else. *)
Definition upload_item (item : VocabularyPair) (c : Counts) : Async Counts :=
  try_catch
    (call (createDocument (databaseId CONFIG) (collectionId CONFIG)
             (mkPair (english item) (japanese item))) ;;;
     log (js "✅ Uploaded: " ++ english item ++ js " → " ++ japanese item) ;;;
     aret (mkCounts (S (successCount c)) (errorCount c)))
    (fun error =>
       match err_code error with
       | Some 409 =>
           log (js "⏭️  Skipped (already exists): " ++ english item) ;;;
           aret c
       | _ =>
           console_error [AStr (js "❌ Error uploading " ++ english item ++ js ":");
                          AStr (err_message error)] ;;;
           aret (mkCounts (successCount c) (S (errorCount c)))
       end).

Fixpoint upload_items (items : list VocabularyPair) (c : Counts) : Async Counts :=
  match items with
  | [] => aret c
  | item :: rest =>
      c' <~ upload_item item c ;;
      upload_items rest c'
  end.

Definition uploadData : Async unit :=
  log (js "🚀 Starting data upload to Appwrite..." ++ LF) ;;;
  c <~ upload_items sampleData (mkCounts 0 0) ;;
  log (LF ++ js "📊 Upload Summary:") ;;;
  log (js "   ✅ Success: " ++ Number_toString (N.of_nat (successCount c))) ;;;
  log (js "   ❌ Errors: " ++ Number_toString (N.of_nat (errorCount c))) ;;;
  log (js "   📝 Total: " ++ Number_toString (N.of_nat (length sampleData))).

(** The script: [uploadData().then(...).catch(...)]. *)
Definition main : Async unit :=
  try_catch
    (uploadData ;;;
     log (LF ++ js "✨ Upload completed!") ;;;
     process_exit 0)
    (fun error =>
       console_error [AStr (LF ++ js "💥 Fatal error:"); AErr error] ;;;
       process_exit 1).

End WithOutside.

End UploadSampleData.

(** ** An outside kept in memory

    A file system, a collection and a clock held in a record, and a Twitter
    API that gives one answer: an implementation of the interface on which
    the scripts can be run. *)

Module Memory.

Record State := mkState {
  files : list (jsstring * jsstring);
  collection : list VocabularyPair;
  clock : N
}.

Fixpoint lookup (path : jsstring) (fs : list (jsstring * jsstring)) : option jsstring :=
  match fs with
  | [] => None
  | (p, content) :: rest => if string_eqb p path then Some content else lookup path rest
  end.

Definition matches (d : VocabularyPair) (q : Query) : bool :=
  match q with
  | Query_equal attribute value =>
      if string_eqb attribute (js "english") then string_eqb (english d) value
      else if string_eqb attribute (js "japanese") then string_eqb (japanese d) value
      else false
  | Query_limit _ => true
  end.

Definition found (queries : list Query) (docs : list VocabularyPair) : list VocabularyPair :=
  filter (fun d => forallb (matches d) queries) docs.

Definition outside (vars : jsstring -> option jsstring) (answer : Settled Response)
  : Outside :=
  {| Env := State;
     process_env := vars;
     fs_existsSync path env :=
       match lookup path (files env) with Some _ => true | None => false end;
     fs_readFileSync path env :=
       match lookup path (files env) with
       | Some content => (Fulfilled content, env)
       | None => (Failed (new_Error (js "ENOENT")), env)
       end;
     fs_writeFileSync path content env :=
       (Fulfilled tt, mkState ((path, content) :: files env) (collection env) (clock env));
     fetch url headers env := (answer, env);
     new_Databases endpoint project key env := (Fulfilled tt, env);
     listDocuments db coll queries env :=
       (Fulfilled (length (found queries (collection env))), env);
     createDocument db coll p env :=
       (Fulfilled tt, mkState (files env) (collection env ++ [p]) (clock env));
     Date_now env := (clock env, mkState (files env) (collection env) (clock env + 1));
     toISOString t := js "1970-01-01T00:00:00.000Z";
     URLSearchParams_toString entries :=
       concat (map (fun kv => js "&" ++ fst kv ++ js "=" ++ snd kv) entries);
     native_error e := new_Error (js "TypeError") |}.

End Memory.

(** ** Specifications of the callers *)

(** [m] returns, from every state, and changes the state within [R]. *)
Definition returns `{Outside} {A} (R : Machine -> Machine -> Prop) (m : Async A) : Prop :=
  forall st, exists a st', m st = (Resolved a, st') /\ R st st'.

(** [m] returns or throws, from every state, and changes the state within
    [R]: it does not end the process. *)
Definition settles `{Outside} {A} (R : Machine -> Machine -> Prop) (m : Async A) : Prop :=
  forall st, exists st',
    R st st' /\
    ((exists a, m st = (Resolved a, st')) \/ (exists e, m st = (Rejected e, st'))).

(** The condition every value satisfies. *)
Definition any {A} (a : A) : Prop := True.

(** [m] returns, from every state, a value that satisfies [Q]. *)
Definition returns_with `{Outside} {A} (Q : A -> Prop) (m : Async A) : Prop :=
  forall st, exists a st', m st = (Resolved a, st') /\ Q a.

(** [m] returns a value that satisfies [Q], or throws. *)
Definition settles_with `{Outside} {A} (Q : A -> Prop) (m : Async A) : Prop :=
  forall st, exists st',
    (exists a, m st = (Resolved a, st') /\ Q a) \/ (exists e, m st = (Rejected e, st')).

(** The counters of the handler after [n] tweets: they add up to [n], and
    the results tell the uploads and the errors. *)
Definition has_status (status : jsstring) (r : Handler.Result) : bool :=
  string_eqb (Handler.result_status r) status.

Definition tally_of (n : nat) (t : Handler.Tally) : Prop :=
  (Handler.uploadedCount t + Handler.skippedCount t + Handler.errorCount t = n)%nat /\
  length (filter (has_status (js "uploaded")) (Handler.results t)) = Handler.uploadedCount t /\
  length (filter (has_status (js "error")) (Handler.results t)) = Handler.errorCount t /\
  (length (filter (has_status (js "existing")) (Handler.results t))
   <= Handler.skippedCount t)%nat /\
  length (Handler.results t)
  = (length (filter (has_status (js "uploaded")) (Handler.results t))
     + length (filter (has_status (js "error")) (Handler.results t))
     + length (filter (has_status (js "existing")) (Handler.results t)))%nat.

(** The response of the handler: sent, with one of three statuses and the
    two headers; a summary in it adds up. *)
Definition answered (res res' : Handler.Res) : Prop :=
  Handler.sent res' = true /\
  Handler.headers res'
  = Handler.headers res
    ++ [ (js "Access-Control-Allow-Origin", js "*");
         (js "Access-Control-Allow-Methods", js "GET, POST, OPTIONS") ] /\
  match Handler.body res' with
  | None => Handler.statusCode res' = Some 200
  | Some (Handler.RateLimited _ _ _) => Handler.statusCode res' = Some 429
  | Some (Handler.NoTweets _ _ uploaded) =>
      Handler.statusCode res' = Some 200 /\ uploaded = 0%nat
  | Some (Handler.Summary success _ _ tweetsChecked uploaded skipped errors results) =>
      Handler.statusCode res' = Some 200 /\ success = true /\
      tally_of tweetsChecked
        (Handler.mkTally uploaded skipped errors results)
  | Some (Handler.Fatal _ _ success) =>
      Handler.statusCode res' = Some 500 /\ success = false
  end.

(** Every credential the handler asks for is set and not empty. *)
Definition credentials (c : Handler.Config) : bool :=
  truthy_opt (Handler.twitterBearerToken c) && truthy_opt (Handler.twitterUserId c)
  && truthy_opt (Handler.projectId c) && truthy_opt (Handler.apiKey c)
  && truthy_opt (Handler.databaseId c) && truthy_opt (Handler.collectionId c).

(** The response object with the two headers of the handler. *)
Definition with_cors (res : Handler.Res) : Handler.Res :=
  Handler.setHeader (js "Access-Control-Allow-Methods") (js "GET, POST, OPTIONS")
    (Handler.setHeader (js "Access-Control-Allow-Origin") (js "*") res).

(** The outside changes within [E]. *)
Definition within `{Outside} (E : Env -> Env -> Prop) (st st' : Machine) : Prop :=
  E (outside st) (outside st').

(** The relation that allows every change. *)
Definition anything `{Outside} (a b : Env) : Prop := True.

(** For [documents] reading the collection of the outside: distinct terms
    stay distinct. *)
Definition distinct_kept `{Outside} (documents : Env -> list VocabularyPair)
  (a b : Env) : Prop :=
  NoDup (map english (documents a)) -> NoDup (map english (documents b)).

(** ** Derived notions used by the statements *)

(** [re.test(s)] for a [re] given by a matcher: a match starts somewhere. *)
Fixpoint has_match (m : matcher) (s : jsstring) : bool :=
  match s with
  | [] => false
  | _ :: r =>
      match m s with
      | Some (S _) => true
      | _ => false
      end || has_match m r
  end.

(** The text starts with a character that is not a word character, or is
    empty: what follows a greedy [\w+]. *)
Definition head_nonword (s : jsstring) : bool :=
  match s with
  | [] => true
  | c :: _ => negb (isWord c)
  end.

(** The text starts with white space, or is empty: what follows a greedy
    [\S+]. *)
Definition head_space (s : jsstring) : bool :=
  match s with
  | [] => true
  | c :: _ => isSpace c
  end.

(** [o] and [r] agree up to the first white space of [o]. *)
Fixpoint run_prefix (o r : jsstring) : Prop :=
  match o with
  | [] => True
  | c :: o' =>
      if isSpace c then True
      else
        match r with
        | d :: r' => d = c /\ run_prefix o' r'
        | [] => False
        end
  end.

(** The value [CheckTweets.parseVocabulary] returns, read off its cleaned
    text. *)
Definition split_value (clean : jsstring) : option VocabularyPair :=
  match search isJapanese clean with
  | None => None
  | Some m =>
      let englishPart := trim (substring_to (index m) clean) in
      let japanesePart := trim (substring_from (index m) clean) in
      if test isLatin englishPart && test isJapanese japanesePart
         && truthy englishPart && truthy japanesePart
      then Some (mkPair englishPart japanesePart)
      else None
  end.

(** The line [CheckTweets.parseVocabulary] writes to the console. *)
Definition split_message (clean : jsstring) : jsstring :=
  match search isJapanese clean with
  | None => CheckTweets.msg_no_japanese clean
  | Some m =>
      let englishPart := trim (substring_to (index m) clean) in
      let japanesePart := trim (substring_from (index m) clean) in
      if test isLatin englishPart && test isJapanese japanesePart
         && truthy englishPart && truthy japanesePart
      then CheckTweets.msg_parsed englishPart japanesePart
      else CheckTweets.msg_invalid englishPart japanesePart
  end.

(** The candidate term of step 3: the trimmed text before the first
    Japanese character of the cleaned text, when there is one. *)
Definition candidate_term (text : jsstring) : option jsstring :=
  option_map (fun m => trim (substring_to (index m) (cleanText text)))
             (search isJapanese (cleanText text)).

(** The value [MonitorServer.parseVocabulary] returns, read off its cleaned
    text. *)
Definition server_value (clean : jsstring) : option VocabularyPair :=
  if negb (test isLatin clean) || negb (test isJapanese clean) then None
  else
    match search isJapanese clean with
    | None => None
    | Some m =>
        let english := trim (substring_to (index m) clean) in
        let japanese := trim (substring_from (index m) clean) in
        if truthy english && truthy japanese
        then Some (mkPair english japanese)
        else None
    end.


(** [o] is [s] with some characters deleted. *)
Inductive subseq : jsstring -> jsstring -> Prop :=
| subseq_nil : subseq [] []
| subseq_keep c o s : subseq o s -> subseq (c :: o) (c :: s)
| subseq_drop c o s : subseq o s -> subseq o (c :: s).

(** The module before any poll: no tweet seen, nothing written. *)
Definition no_world : World := mkWorld None [].

(** Examples: every variable set, an answer with two tweets, a collection
    that knows [cat], and the state a script starts in. *)
Definition all_set (key : jsstring) : option jsstring := Some (js "x").

Definition two_tweets : Settled Response :=
  Fulfilled
    (mkResponse true 200 (Fulfilled [])
       (Fulfilled
          (mkTweetsData
             (Some [ mkTweet (js "102") (js "dog 犬 #n5");
                     mkTweet (js "101") (js "@eitangos cat 猫") ])))).

Definition cat_known : Memory.State :=
  Memory.mkState [] [mkPair (js "cat") (js "猫")] 0.

Definition start `{Outside} (env : Env) : Machine := mkMachine env no_world [].

(** A fresh response object, a [GET] and an [OPTIONS] request, no variable
    set, and a stand-in for [JSON.stringify]. *)
Definition fresh : Handler.Res := Handler.mkRes [] None None false.
Definition get_request : Handler.Request := Handler.mkRequest (js "GET").
Definition options_request : Handler.Request := Handler.mkRequest (js "OPTIONS").
Definition none_set (key : jsstring) : option jsstring := None.
Definition stringify (b : Handler.Body) : jsstring := js "{}".

(** * Properties *)

(** ** Character classes *)

Lemma in_range_true lo hi c : in_range lo hi c = true <-> lo <= c <= hi.
Proof.
  unfold in_range. rewrite andb_true_iff, !N.leb_le. tauto.
Qed.

Lemma in_range_false lo hi c : in_range lo hi c = false <-> c < lo \/ hi < c.
Proof.
  unfold in_range. rewrite andb_false_iff, !N.leb_gt. tauto.
Qed.

Lemma isJapanese_range c :
  isJapanese c = true -> 0x3040 <= c <= 0x30FF \/ 0x4E00 <= c <= 0x9FAF.
Proof.
  unfold isJapanese. rewrite !orb_true_iff, !in_range_true. lia.
Qed.

Lemma isLatin_range c :
  isLatin c = true -> 97 <= c <= 122 \/ 65 <= c <= 90.
Proof.
  unfold isLatin. rewrite !orb_true_iff, !in_range_true. lia.
Qed.

Lemma not_space_of_bounds c :
  (33 <= c <= 122 \/ 0x3040 <= c <= 0x9FAF) -> isSpace c = false.
Proof.
  intros H. unfold isSpace.
  rewrite !orb_false_iff, !in_range_false, !N.eqb_neq. lia.
Qed.

Lemma isJapanese_not_space c : isJapanese c = true -> isSpace c = false.
Proof.
  intros H. apply isJapanese_range in H. apply not_space_of_bounds. lia.
Qed.

Lemma isLatin_not_space c : isLatin c = true -> isSpace c = false.
Proof.
  intros H. apply isLatin_range in H. apply not_space_of_bounds. lia.
Qed.

(** ** Trimming *)

Lemma trimStart_In c s : In c (trimStart s) -> In c s.
Proof.
  induction s as [|d r IH]; simpl; [tauto|].
  destruct (isSpace d); simpl; tauto.
Qed.

Lemma trimEnd_In c s : In c (trimEnd s) -> In c s.
Proof.
  induction s as [|d r IH]; simpl; [tauto|].
  destruct (trimEnd r) as [|x t].
  - destruct (isSpace d); simpl; tauto.
  - simpl in *. tauto.
Qed.

Lemma trim_In c s : In c (trim s) -> In c s.
Proof.
  unfold trim. intros H. now apply trimStart_In, trimEnd_In.
Qed.

(** [trimEnd] keeps the head of what it leaves. *)
Lemma trimEnd_cons_inv s x t :
  trimEnd s = x :: t -> exists r, s = x :: r /\ (t = trimEnd r \/ t = []).
Proof.
  destruct s as [|d r]; simpl; [discriminate|].
  destruct (trimEnd r) as [|y u] eqn:E.
  - destruct (isSpace d); [discriminate|].
    intros [= <- <-]. exists r. auto.
  - intros [= <- <-]. exists r. auto.
Qed.

Lemma trimEnd_head c r :
  isSpace c = false -> exists t, trimEnd (c :: r) = c :: t.
Proof.
  intros H. simpl. rewrite H.
  destruct (trimEnd r) as [|y u]; eauto.
Qed.

Lemma trimStart_head c r : isSpace c = false -> trimStart (c :: r) = c :: r.
Proof.
  intros H. simpl. now rewrite H.
Qed.

Lemma trimStart_starts s :
  trimStart s = [] \/ exists c r, trimStart s = c :: r /\ isSpace c = false.
Proof.
  induction s as [|d r IH]; simpl; [now left|].
  destruct (isSpace d) eqn:E; [exact IH|].
  right. eauto.
Qed.

Lemma trimStart_idem s : trimStart (trimStart s) = trimStart s.
Proof.
  destruct (trimStart_starts s) as [->|(c & r & -> & H)]; [reflexivity|].
  now apply trimStart_head.
Qed.

Lemma trimEnd_idem s : trimEnd (trimEnd s) = trimEnd s.
Proof.
  induction s as [|d r IH]; simpl; [reflexivity|].
  destruct (trimEnd r) as [|y u] eqn:E.
  - destruct (isSpace d) eqn:Ed; simpl; [reflexivity|]. now rewrite Ed.
  - change (trimEnd (d :: y :: u)) with
      (match trimEnd (y :: u) with
       | [] => if isSpace d then [] else [d]
       | t => d :: t
       end).
    now rewrite IH.
Qed.

(** Trimming the end of a text that starts with a visible character leaves
    that start in place. *)
Lemma trimStart_trimEnd s : trimStart (trimEnd (trimStart s)) = trimEnd (trimStart s).
Proof.
  destruct (trimStart_starts s) as [->|(c & r & -> & H)]; [reflexivity|].
  destruct (trimEnd_head c r H) as [t ->].
  now apply trimStart_head.
Qed.

Lemma trim_idem s : trim (trim s) = trim s.
Proof.
  unfold trim. now rewrite trimStart_trimEnd, trimEnd_idem.
Qed.

Lemma trimStart_snoc l c :
  trimStart (l ++ [c]) =
  match trimStart l with
  | [] => if isSpace c then [] else [c]
  | t => t ++ [c]
  end.
Proof.
  induction l as [|d l IH]; simpl; [reflexivity|].
  destruct (isSpace d); [exact IH|reflexivity].
Qed.

(** [trimEnd] is [trimStart] read from the end. *)
Lemma trimEnd_rev s : trimEnd s = rev (trimStart (rev s)).
Proof.
  induction s as [|c r IH]; [reflexivity|].
  simpl. rewrite trimStart_snoc, IH.
  destruct (trimStart (rev r)) as [|x u].
  - simpl. now destruct (isSpace c).
  - rewrite rev_unit. destruct (rev (x :: u)) eqn:E; [|reflexivity].
    apply (f_equal (@length _)) in E. rewrite length_rev in E. discriminate.
Qed.

Lemma trim_head c r : isSpace c = false -> exists t, trim (c :: r) = c :: t.
Proof.
  intros H. unfold trim. rewrite (trimStart_head _ _ H).
  now apply trimEnd_head.
Qed.

(** A class none of whose characters is white space is seen by [test]
    before and after trimming alike. *)
Section VisibleClass.

Variable p : code_unit -> bool.
Hypothesis p_visible : forall c, p c = true -> isSpace c = false.

Lemma p_space c : isSpace c = true -> p c = false.
Proof.
  intros H. destruct (p c) eqn:E; [|reflexivity].
  apply p_visible in E. congruence.
Qed.

Lemma filter_trimStart s : filter p (trimStart s) = filter p s.
Proof.
  induction s as [|d r IH]; simpl; [reflexivity|].
  destruct (isSpace d) eqn:E; [|reflexivity].
  now rewrite (p_space _ E).
Qed.

Lemma filter_trimEnd s : filter p (trimEnd s) = filter p s.
Proof.
  induction s as [|d r IH]; simpl; [reflexivity|].
  destruct (trimEnd r) as [|y u] eqn:E.
  - rewrite <- IH. destruct (isSpace d) eqn:Ed; simpl.
    + now rewrite (p_space _ Ed).
    + reflexivity.
  - rewrite <- IH. reflexivity.
Qed.

Lemma filter_trim s : filter p (trim s) = filter p s.
Proof.
  unfold trim. now rewrite filter_trimEnd, filter_trimStart.
Qed.

Lemma existsb_filter s : existsb p s = truthy (filter p s).
Proof.
  induction s as [|d r IH]; simpl; [reflexivity|].
  destruct (p d); simpl; auto.
Qed.

Lemma test_trim s : test p (trim s) = test p s.
Proof.
  unfold test. now rewrite !existsb_filter, filter_trim.
Qed.

End VisibleClass.

Lemma test_truthy p s : test p s = true -> truthy s = true.
Proof.
  destruct s; simpl; [discriminate|reflexivity].
Qed.

Lemma test_false_In p s : test p s = false <-> forall c, In c s -> p c = false.
Proof.
  unfold test. split.
  - intros H c Hc. destruct (p c) eqn:E; [|reflexivity].
    assert (existsb p s = true) by (apply existsb_exists; eauto). congruence.
  - intros H. destruct (existsb p s) eqn:E; [|reflexivity].
    apply existsb_exists in E as (c & Hc & Hp). rewrite (H c Hc) in Hp. discriminate.
Qed.

(** ** Searching *)

Lemma search_None p s : search p s = None <-> test p s = false.
Proof.
  unfold test. induction s as [|d r IH]; simpl; [tauto|].
  destruct (p d); simpl.
  - split; discriminate.
  - rewrite <- IH. destruct (search p r); simpl; split; congruence.
Qed.

(** What a successful search says: the text before the match has no
    character of the class, the match is one character of it. *)
Lemma search_Some p s m :
  search p s = Some m ->
  exists c r,
    s = firstn (index m) s ++ c :: r /\ skipn (index m) s = c :: r /\
    matched m = [c] /\ p c = true /\ test p (firstn (index m) s) = false /\
    length (firstn (index m) s) = index m.
Proof.
  revert m. induction s as [|d r IH]; simpl; intros m; [discriminate|].
  destruct (p d) eqn:E.
  - intros [= <-]. simpl. exists d, r. auto 10.
  - destruct (search p r) as [m'|]; simpl; [|discriminate].
    intros [= <-]. simpl.
    destruct (IH m' eq_refl) as (c & t & H1 & H2 & H3 & H4 & H5 & H6).
    exists c, t. rewrite E, H5, H6. simpl. rewrite <- H1. auto 10.
Qed.

(** The search in a text of which the first character of the class is
    known. *)
Lemma search_app p l c r :
  test p l = false -> p c = true ->
  search p (l ++ c :: r) = Some (mkMatch [c] (length l)).
Proof.
  unfold test. induction l as [|d l IH]; simpl; intros Hl Hc.
  - now rewrite Hc.
  - apply orb_false_iff in Hl as [Hd Hl]. rewrite Hd, (IH Hl Hc). reflexivity.
Qed.

(** ** Replacing *)

Lemma scan_0_cons m c r :
  scan m 0 (c :: r) =
  match m (c :: r) with
  | Some (S k) => scan m k r
  | _ => c :: scan m 0 r
  end.
Proof. reflexivity. Qed.

Lemma scan_S_cons m k c r : scan m (S k) (c :: r) = scan m k r.
Proof. reflexivity. Qed.

Lemma scan_In m c s : forall k, In c (scan m k s) -> In c s.
Proof.
  induction s as [|d r IH]; simpl; intros k; [tauto|].
  destruct k as [|k].
  - destruct (m (d :: r)) as [[|n]|]; simpl; intros H;
      try (destruct H; [now left | right; eauto]); right; eauto.
  - intros H. right. eauto.
Qed.

Lemma scan_length m s : forall k, (length (scan m k s) <= length s)%nat.
Proof.
  induction s as [|d r IH]; simpl; intros k; [lia|].
  destruct k as [|k].
  - destruct (m (d :: r)) as [[|n]|]; simpl;
      try (specialize (IH 0%nat); lia); specialize (IH n); lia.
  - specialize (IH k). lia.
Qed.

Lemma replace_all_In m c s : In c (replace_all m s) -> In c s.
Proof. apply scan_In. Qed.

Lemma replace_all_length m s : (length (replace_all m s) <= length s)%nat.
Proof. apply scan_length. Qed.

(** A text in which the expression matches nowhere is left as it is. *)
Lemma replace_all_fixed m s : has_match m s = false -> replace_all m s = s.
Proof.
  unfold replace_all. induction s as [|d r IH]; simpl; [reflexivity|].
  intros H. apply orb_false_iff in H as [H1 H2].
  destruct (m (d :: r)) as [[|n]|]; try discriminate; now rewrite IH.
Qed.

(** A text in which it matches somewhere gets shorter. *)
Lemma replace_all_shorter m s :
  has_match m s = true -> (length (replace_all m s) < length s)%nat.
Proof.
  unfold replace_all. induction s as [|d r IH]; simpl; [discriminate|].
  intros H.
  destruct (m (d :: r)) as [[|n]|]; simpl in *;
    try (specialize (IH H); lia).
  pose proof (scan_length m r n). lia.
Qed.

Lemma has_match_tail m c r : has_match m (c :: r) = false -> has_match m r = false.
Proof.
  simpl. intros H. now apply orb_false_iff in H.
Qed.

(** *** Mentions and hashtags *)

Lemma run_zero_head s : run isWord s = 0%nat <-> head_nonword s = true.
Proof.
  destruct s as [|c r]; simpl; [tauto|].
  destruct (isWord c); simpl; split; congruence.
Qed.

(** A tag starts at the head of [c :: r] when [c] is the marker and a word
    character follows. *)
Lemma match_tag_None a c r :
  match_tag a (c :: r) = None <-> c <> a \/ head_nonword r = true.
Proof.
  simpl. destruct (N.eqb_spec c a) as [->|Hne].
  - rewrite <- run_zero_head. destruct (run isWord r).
    + tauto.
    + split; [discriminate|]. intros [H|H]; congruence.
  - tauto.
Qed.

Lemma match_tag_Some a s n :
  match_tag a s = Some n ->
  exists r k, s = a :: r /\ n = S (S k) /\ run isWord r = S k.
Proof.
  destruct s as [|c r]; simpl; [discriminate|].
  destruct (N.eqb_spec c a) as [->|Hne]; [|discriminate].
  destruct (run isWord r) as [|k] eqn:E; [discriminate|].
  intros [= <-]. eauto.
Qed.

Lemma has_tag_cons a c r :
  has_match (match_tag a) (c :: r) = false <->
  (c <> a \/ head_nonword r = true) /\ has_match (match_tag a) r = false.
Proof.
  rewrite <- match_tag_None.
  change (has_match (match_tag a) (c :: r)) with
    (match match_tag a (c :: r) with Some (S _) => true | _ => false end
     || has_match (match_tag a) r).
  rewrite orb_false_iff.
  destruct (match_tag a (c :: r)) as [n|] eqn:E.
  - apply match_tag_Some in E as (t & k & _ & -> & _).
    split; intros [H _]; discriminate.
  - tauto.
Qed.

(** While the scan drops the word characters of a tag, [skip] is the
    length of the run of word characters ahead. Under that invariant the
    text the scan leaves holds no tag for marker [a], if [a] is the marker
    removed or if the text held none for [a] before; and what follows a
    removed tag does not start with a word character. *)
Lemma scan_tag_inv a mk s :
  forall k,
    k = 0%nat \/ k = run isWord s ->
    a = mk \/ has_match (match_tag a) s = false ->
    has_match (match_tag a) (scan (match_tag mk) k s) = false /\
    (k <> 0%nat \/ head_nonword s = true ->
     head_nonword (scan (match_tag mk) k s) = true).
Proof.
  induction s as [|c r IH]; intros k Hk Ha; [simpl; auto|].
  assert (Ha' : a = mk \/ has_match (match_tag a) r = false).
  { destruct Ha as [Ha|Ha]; [now left|right]. now apply has_match_tail in Ha. }
  destruct k as [|k].
  - rewrite scan_0_cons.
    destruct (match_tag mk (c :: r)) as [n|] eqn:E.
    + apply match_tag_Some in E as (t & j & [= -> <-] & -> & Hrun).
      destruct (IH (S j) (or_intror (eq_sym Hrun)) Ha') as [H1 H2].
      split; [exact H1|]. intros _. apply H2. now left.
    + destruct (IH 0%nat (or_introl eq_refl) Ha') as [H1 H2].
      split.
      * apply has_tag_cons. split; [|exact H1].
        destruct (N.eq_dec c a) as [->|Hne]; [right|now left].
        apply H2. right.
        destruct Ha as [->|Ha].
        -- apply match_tag_None in E as [E|E]; [congruence|exact E].
        -- apply has_tag_cons in Ha as [[Ha|Ha] _]; [congruence|exact Ha].
      * intros [H|H]; [congruence|exact H].
  - destruct Hk as [Hk|Hk]; [discriminate|].
    simpl in Hk. destruct (isWord c) eqn:Ec; [|discriminate].
    injection Hk as Hk. rewrite scan_S_cons.
    destruct (IH k (or_intror Hk) Ha') as [H1 H2].
    split; [exact H1|]. intros _. apply H2.
    destruct k as [|k]; [right|now left].
    now apply run_zero_head.
Qed.

(** After the removal of the tags of a marker none is left. *)
Lemma replace_all_tag_none mk s :
  has_match (match_tag mk) (replace_all (match_tag mk) s) = false.
Proof.
  apply (scan_tag_inv mk mk s 0%nat); auto.
Qed.

(** The removal of the tags of one marker makes no tag of another. *)
Lemma replace_all_tag_keeps a mk s :
  has_match (match_tag a) s = false ->
  has_match (match_tag a) (replace_all (match_tag mk) s) = false.
Proof.
  intros H. apply (scan_tag_inv a mk s 0%nat); auto.
Qed.

Lemma has_tag_trimStart a s :
  has_match (match_tag a) s = false ->
  has_match (match_tag a) (trimStart s) = false.
Proof.
  induction s as [|c r IH]; simpl trimStart; [auto|].
  intros H. destruct (isSpace c); [|exact H].
  apply IH. now apply has_match_tail in H.
Qed.

Lemma head_nonword_trimEnd s :
  head_nonword s = true -> head_nonword (trimEnd s) = true.
Proof.
  destruct (trimEnd s) as [|x t] eqn:E; [reflexivity|].
  apply trimEnd_cons_inv in E as (r & -> & _). auto.
Qed.

Lemma has_tag_trimEnd a s :
  has_match (match_tag a) s = false ->
  has_match (match_tag a) (trimEnd s) = false.
Proof.
  induction s as [|c r IH]; [auto|].
  intros H. apply has_tag_cons in H as [H1 H2].
  specialize (IH H2).
  simpl trimEnd. destruct (trimEnd r) as [|x t] eqn:E.
  - destruct (isSpace c); [reflexivity|].
    apply has_tag_cons. split; [|reflexivity]. now right.
  - apply has_tag_cons. split; [|exact IH].
    destruct H1 as [H1|H1]; [now left|right].
    rewrite <- E. now apply head_nonword_trimEnd.
Qed.

Lemma has_tag_trim a s :
  has_match (match_tag a) s = false ->
  has_match (match_tag a) (trim s) = false.
Proof.
  intros H. unfold trim. now apply has_tag_trimEnd, has_tag_trimStart.
Qed.

(** *** URLs *)

Lemma strip_prefix_Some pat s s1 : strip_prefix pat s = Some s1 -> s = pat ++ s1.
Proof.
  revert s. induction pat as [|p pat IH]; simpl; intros s.
  - now intros [= ->].
  - destruct s as [|c r]; [discriminate|].
    destruct (N.eqb_spec c p) as [->|]; [|discriminate].
    intros H. now rewrite (IH _ H).
Qed.

Lemma run_app_all p l s :
  Forall (fun c => p c = true) l -> run p (l ++ s) = (length l + run p s)%nat.
Proof.
  induction 1 as [|c l Hc _ IH]; simpl; [reflexivity|]. now rewrite Hc, IH.
Qed.

Lemma match_url_tail_Some r n :
  match_url_tail r = Some n ->
  exists r' j, r = js "://" ++ r' /\ run isNonSpace r' = S j /\ n = (3 + S j)%nat.
Proof.
  unfold match_url_tail.
  destruct (strip_prefix (js "://") r) as [r'|] eqn:E; [|discriminate].
  apply strip_prefix_Some in E.
  destruct (run isNonSpace r') as [|j] eqn:R; [discriminate|].
  intros [= <-]. eauto.
Qed.

(** A URL is never empty, and it runs up to the next white space. *)
Lemma match_url_run s n :
  match_url s = Some n -> exists k, n = S k /\ run isNonSpace s = S k.
Proof.
  unfold match_url.
  destruct (strip_prefix (js "http") s) as [r|] eqn:E; [|discriminate].
  apply strip_prefix_Some in E. subst s.
  assert (Hhttp : Forall (fun c => isNonSpace c = true) (js "http"))
    by (repeat constructor).
  assert (Hsep : Forall (fun c => isNonSpace c = true) (js "://"))
    by (repeat constructor).
  rewrite (run_app_all _ _ _ Hhttp).
  destruct (match r with
            | [] => None
            | c :: r' => if c =? 115 then option_map S (match_url_tail r') else None
            end) as [n0|] eqn:W.
  - destruct r as [|c r']; [discriminate|].
    destruct (N.eqb_spec c 115) as [->|]; [|discriminate].
    destruct (match_url_tail r') as [m|] eqn:T; [|discriminate].
    injection W as <-.
    apply match_url_tail_Some in T as (r'' & j & -> & R & ->).
    intros [= <-]. eexists. split; [reflexivity|].
    change (run isNonSpace (115 :: js "://" ++ r''))
      with (S (run isNonSpace (js "://" ++ r''))).
    rewrite (run_app_all _ _ _ Hsep), R. reflexivity.
  - destruct (match_url_tail r) as [m|] eqn:T; [|discriminate].
    apply match_url_tail_Some in T as (r'' & j & -> & R & ->).
    intros [= <-]. eexists. split; [reflexivity|].
    rewrite (run_app_all _ _ _ Hsep), R. reflexivity.
Qed.

Lemma run_cons_S p c r k : run p (c :: r) = S k -> p c = true /\ run p r = k.
Proof.
  simpl. destruct (p c); [|discriminate]. intros [= <-]. auto.
Qed.

Lemma run_cons_0 p c r : run p (c :: r) = 0%nat -> p c = false.
Proof.
  simpl. destruct (p c); [discriminate|reflexivity].
Qed.

Lemma head_space_run_prefix o r : head_space o = true -> run_prefix o r.
Proof.
  destruct o as [|c o]; simpl; [trivial|]. now intros ->.
Qed.

Lemma run_zero_head_space s : run isNonSpace s = 0%nat <-> head_space s = true.
Proof.
  destruct s as [|c r]; simpl; [tauto|]. unfold isNonSpace.
  destruct (isSpace c); simpl; split; congruence.
Qed.

Lemma run_prefix_cons c o r :
  run_prefix o r -> run_prefix (c :: o) (c :: r).
Proof.
  intros H. simpl. destruct (isSpace c); auto.
Qed.

Lemma run_prefix_le o : forall r,
  run_prefix o r -> (run isNonSpace o <= run isNonSpace r)%nat.
Proof.
  induction o as [|c o IH]; simpl; intros r; [lia|]. unfold isNonSpace at 1.
  destruct (isSpace c) eqn:E; simpl; [lia|].
  destruct r as [|d r]; [tauto|]. intros [-> H]. simpl.
  unfold isNonSpace at 2. rewrite E. simpl. specialize (IH r H). lia.
Qed.

Lemma strip_prefix_run_prefix pat :
  Forall (fun c => isNonSpace c = true) pat ->
  forall o r o1,
    strip_prefix pat o = Some o1 -> run_prefix o r ->
    exists r1, strip_prefix pat r = Some r1 /\ run_prefix o1 r1.
Proof.
  induction 1 as [|p pat Hp _ IH]; simpl; intros o r o1.
  - intros [= ->]. eauto.
  - destruct o as [|c o]; [discriminate|].
    destruct (N.eqb_spec c p) as [->|]; [|discriminate].
    intros Ho. simpl. unfold isNonSpace in Hp.
    destruct (isSpace p); [discriminate|].
    destruct r as [|d r]; [tauto|]. intros [-> Hr].
    rewrite N.eqb_refl. eauto.
Qed.

Lemma match_url_tail_run_prefix o r n :
  match_url_tail o = Some n -> run_prefix o r ->
  exists n', match_url_tail r = Some n'.
Proof.
  unfold match_url_tail.
  destruct (strip_prefix (js "://") o) as [o1|] eqn:E; [|discriminate].
  intros Hn Hr.
  assert (Hsep : Forall (fun c => isNonSpace c = true) (js "://"))
    by (repeat constructor).
  destruct (strip_prefix_run_prefix _ Hsep _ _ _ E Hr) as (r1 & -> & H1).
  apply run_prefix_le in H1.
  destruct (run isNonSpace o1); [discriminate|].
  destruct (run isNonSpace r1); [lia|]. eauto.
Qed.

(** A URL at the head of [o] is one at the head of every text that agrees
    with [o] up to the first white space of [o]. *)
Lemma match_url_run_prefix o r n :
  match_url o = Some n -> run_prefix o r -> exists k, match_url r = Some (S k).
Proof.
  unfold match_url.
  destruct (strip_prefix (js "http") o) as [o1|] eqn:E; [|discriminate].
  intros Hn Hr.
  assert (Hhttp : Forall (fun c => isNonSpace c = true) (js "http"))
    by (repeat constructor).
  destruct (strip_prefix_run_prefix _ Hhttp _ _ _ E Hr) as (r1 & -> & H1).
  assert (Htail : exists n', match_url_tail r1 = Some n'
                   \/ exists r1', r1 = 115 :: r1' /\ match_url_tail r1' = Some n').
  { destruct o1 as [|c o1'].
    - destruct (match_url_tail []) as [m|] eqn:T; [|discriminate].
      destruct (match_url_tail_run_prefix _ _ _ T H1) as [n' ->]. eauto.
    - destruct (N.eqb_spec c 115) as [->|].
      + destruct (match_url_tail o1') as [m|] eqn:T.
        * destruct r1 as [|d r1']; [simpl in H1; tauto|].
          simpl in H1. destruct H1 as [-> H1].
          destruct (match_url_tail_run_prefix _ _ _ T H1) as [n' Hn']. eauto.
        * simpl in Hn.
          destruct (match_url_tail (115 :: o1')) as [m|] eqn:T'; [|discriminate].
          destruct (match_url_tail_run_prefix _ _ _ T' H1) as [n' ->]. eauto.
      + destruct (match_url_tail (c :: o1')) as [m|] eqn:T; [|discriminate].
        destruct (match_url_tail_run_prefix _ _ _ T H1) as [n' ->]. eauto. }
  destruct Htail as [n' [T|(r1' & -> & T)]].
  - rewrite T. destruct r1 as [|c r1']; [simpl; eauto|].
    destruct (c =? 115); [|simpl; eauto].
    destruct (match_url_tail r1'); simpl; eauto.
  - rewrite N.eqb_refl, T. simpl. eauto.
Qed.

(** While the scan drops the characters of a URL, [skip] is the length of
    the run of visible characters ahead. Under that invariant the text
    the scan leaves holds no URL; it agrees with the text scanned up to its
    first white space, and what follows a removed URL starts with white
    space. *)
Lemma scan_url_inv s :
  forall k,
    k = 0%nat \/ k = run isNonSpace s ->
    has_match match_url (scan match_url k s) = false /\
    (k = 0%nat -> run_prefix (scan match_url k s) s) /\
    (k = run isNonSpace s -> head_space (scan match_url k s) = true).
Proof.
  induction s as [|c r IH]; intros k Hk; [simpl; auto|].
  destruct k as [|k].
  - rewrite scan_0_cons.
    destruct (match_url (c :: r)) as [n|] eqn:E.
    + destruct (match_url_run _ _ E) as (j & -> & Hrun).
      pose proof Hrun as Hrun'.
      apply run_cons_S in Hrun as [_ Hrun].
      destruct (IH j (or_intror (eq_sym Hrun))) as (H1 & _ & H3).
      split; [exact H1|]. split.
      * intros _. apply head_space_run_prefix. now apply H3.
      * rewrite Hrun'. discriminate.
    + destruct (IH 0%nat (or_introl eq_refl)) as (H1 & H2 & _).
      specialize (H2 eq_refl).
      assert (Hp : run_prefix (c :: scan match_url 0 r) (c :: r))
        by now apply run_prefix_cons.
      split; [|split].
      * change (match match_url (c :: scan match_url 0 r) with
                | Some (S _) => true
                | _ => false
                end || has_match match_url (scan match_url 0 r) = false).
        rewrite H1, orb_false_r.
        destruct (match_url (c :: scan match_url 0 r)) as [n|] eqn:E';
          [|reflexivity].
        destruct (match_url_run_prefix _ _ _ E' Hp) as [j Hj]. congruence.
      * intros _. exact Hp.
      * intros Hrun. symmetry in Hrun. apply run_cons_0 in Hrun.
        unfold isNonSpace in Hrun. simpl. now destruct (isSpace c).
  - destruct Hk as [Hk|Hk]; [discriminate|].
    symmetry in Hk. apply run_cons_S in Hk as [_ Hk]. symmetry in Hk.
    rewrite scan_S_cons.
    destruct (IH k (or_intror Hk)) as (H1 & _ & H3).
    split; [exact H1|]. split; [discriminate|]. intros _. now apply H3.
Qed.

(** After the removal of the URLs none is left. *)
Lemma remove_urls_none s : has_match match_url (remove_urls s) = false.
Proof.
  apply (scan_url_inv s 0%nat). now left.
Qed.

Lemma remove_urls_idem s : remove_urls (remove_urls s) = remove_urls s.
Proof. apply replace_all_fixed, remove_urls_none. Qed.

Lemma remove_mentions_idem s : remove_mentions (remove_mentions s) = remove_mentions s.
Proof. apply replace_all_fixed, replace_all_tag_none. Qed.

Lemma remove_hashtags_idem s : remove_hashtags (remove_hashtags s) = remove_hashtags s.
Proof. apply replace_all_fixed, replace_all_tag_none. Qed.

Lemma run_prefix_trimEnd s : run_prefix (trimEnd s) s.
Proof.
  induction s as [|c r IH]; simpl trimEnd; [exact I|].
  destruct (trimEnd r) as [|x t].
  - destruct (isSpace c) eqn:E; [exact I|]. simpl. now rewrite E.
  - now apply run_prefix_cons.
Qed.

Lemma has_url_trimStart s :
  has_match match_url s = false -> has_match match_url (trimStart s) = false.
Proof.
  induction s as [|c r IH]; simpl trimStart; [auto|].
  intros H. destruct (isSpace c); [|exact H].
  apply IH. now apply has_match_tail in H.
Qed.

Lemma has_url_trimEnd s :
  has_match match_url s = false -> has_match match_url (trimEnd s) = false.
Proof.
  induction s as [|c r IH]; [auto|].
  intros H. pose proof (run_prefix_trimEnd (c :: r)) as Hp.
  pose proof (has_match_tail _ _ _ H) as Hr. specialize (IH Hr).
  assert (Hc : forall t, has_match match_url t = false ->
                         run_prefix (c :: t) (c :: r) ->
                         has_match match_url (c :: t) = false).
  { intros t Ht Hpt.
    change (match match_url (c :: t) with Some (S _) => true | _ => false end
            || has_match match_url t = false).
    rewrite Ht, orb_false_r.
    destruct (match_url (c :: t)) as [n|] eqn:E; [|reflexivity].
    destruct (match_url_run_prefix _ _ _ E Hpt) as [j Hj].
    simpl in H. rewrite Hj in H. discriminate. }
  simpl trimEnd in *. destruct (trimEnd r) as [|x t].
  - destruct (isSpace c); [reflexivity|]. now apply Hc.
  - now apply Hc.
Qed.

Lemma has_url_trim s :
  has_match match_url s = false -> has_match match_url (trim s) = false.
Proof.
  intros H. unfold trim. now apply has_url_trimEnd, has_url_trimStart.
Qed.

Lemma trim_length s : (length (trim s) <= length s)%nat.
Proof.
  assert (Hs : forall t, (length (trimStart t) <= length t)%nat).
  { induction t as [|c r IH]; simpl; [lia|]. destruct (isSpace c); simpl; lia. }
  assert (He : forall t, (length (trimEnd t) <= length t)%nat).
  { induction t as [|c r IH]; simpl; [lia|].
    destruct (trimEnd r); [destruct (isSpace c)|]; simpl in *; lia. }
  unfold trim. specialize (Hs s). specialize (He (trimStart s)). lia.
Qed.

(** ** The cleaned text *)

(** The cleaned text holds no mention and no hashtag, and is trimmed. *)
Lemma cleanText_no_mention text :
  has_match (match_tag at_sign) (cleanText text) = false.
Proof.
  unfold cleanText, removals, remove_hashtags, remove_mentions.
  apply has_tag_trim, replace_all_tag_keeps, replace_all_tag_none.
Qed.

Lemma cleanText_no_hashtag text :
  has_match (match_tag hash_sign) (cleanText text) = false.
Proof.
  unfold cleanText, removals, remove_hashtags.
  apply has_tag_trim, replace_all_tag_none.
Qed.

Lemma cleanText_trimmed text : trim (cleanText text) = cleanText text.
Proof. apply trim_idem. Qed.

Lemma cleanText_In c text : In c (cleanText text) -> In c text.
Proof.
  unfold cleanText, removals, remove_hashtags, remove_mentions, remove_urls.
  intros H. now apply trim_In, replace_all_In, replace_all_In, replace_all_In in H.
Qed.

(** A text without URL, mention and hashtag is cleaned by the trim alone. *)
Lemma removals_fixed text :
  has_match match_url text = false ->
  has_match (match_tag at_sign) text = false ->
  has_match (match_tag hash_sign) text = false ->
  removals text = text.
Proof.
  intros Hu Hm Hh. unfold removals, remove_hashtags, remove_mentions, remove_urls.
  now rewrite (replace_all_fixed _ _ Hu), (replace_all_fixed _ _ Hm),
    (replace_all_fixed _ _ Hh).
Qed.

Lemma removals_length text : (length (removals text) <= length text)%nat.
Proof.
  unfold removals, remove_hashtags, remove_mentions, remove_urls.
  pose proof (replace_all_length match_url text).
  pose proof (replace_all_length (match_tag at_sign) (replace_all match_url text)).
  pose proof (replace_all_length (match_tag hash_sign)
                (replace_all (match_tag at_sign) (replace_all match_url text))).
  lia.
Qed.

(** ** What a call does *)

(** A call of [CheckTweets.parseVocabulary] completes normally, with the
    value read off the cleaned text, and writes one line to the console. *)
Lemma parseVocabulary_run text w :
  CheckTweets.parseVocabulary text w =
  (Normal (split_value (cleanText text)),
   mkWorld (lastTweetId w) (console w ++ [split_message (cleanText text)])).
Proof.
  unfold CheckTweets.parseVocabulary, split_value, split_message.
  destruct (search isJapanese (cleanText text)) as [m|]; [|reflexivity].
  cbn [get_index]. unfold bind at 1. unfold ret at 1. cbv beta iota.
  destruct (test isLatin _ && test isJapanese _ && truthy _ && truthy _);
    reflexivity.
Qed.

Lemma parseVocabulary_value text w :
  fst (CheckTweets.parseVocabulary text w) = Normal (split_value (cleanText text)).
Proof. now rewrite parseVocabulary_run. Qed.

(** The same for [MonitorServer.parseVocabulary], which writes nothing. *)
Lemma server_parseVocabulary_run text w :
  exists r, MonitorServer.parseVocabulary text w = (Normal r, w).
Proof.
  unfold MonitorServer.parseVocabulary.
  destruct (negb _ || negb _); [eexists; reflexivity|].
  destruct (search isJapanese (cleanText text)) as [m|]; [|eexists; reflexivity].
  cbn [get_index]. unfold bind, ret.
  destruct (truthy _ && truthy _); eexists; reflexivity.
Qed.

(** What a returned pair says about the cleaned text. *)
Lemma split_value_Some clean p :
  split_value clean = Some p ->
  exists l c r,
    clean = l ++ c :: r /\ test isJapanese l = false /\ isJapanese c = true /\
    english p = trim l /\ japanese p = trim (c :: r) /\
    test isLatin (trim l) = true /\ test isJapanese (trim (c :: r)) = true.
Proof.
  unfold split_value.
  destruct (search isJapanese clean) as [m|] eqn:E; [|discriminate].
  apply search_Some in E as (c & r & H1 & H2 & _ & H4 & H5 & _).
  unfold substring_to, substring_from. rewrite H2.
  destruct (test isLatin _) eqn:T1; [|discriminate].
  destruct (test isJapanese (trim (c :: r))) eqn:T2; [|discriminate].
  cbn [andb].
  destruct (truthy (trim (firstn (index m) clean)) && truthy (trim (c :: r)));
    [|discriminate].
  intros [= <-]. simpl. exists (firstn (index m) clean), c, r. auto 10.
Qed.

Lemma firstn_length_app (l x : jsstring) : firstn (length l) (l ++ x) = l.
Proof.
  induction l as [|d l IH]; simpl; [now destruct x|]. now rewrite IH.
Qed.

Lemma skipn_length_app (l x : jsstring) : skipn (length l) (l ++ x) = x.
Proof.
  induction l as [|d l IH]; simpl; auto.
Qed.

Lemma trimStart_app l x : trimStart l <> [] -> trimStart (l ++ x) = trimStart l ++ x.
Proof.
  induction l as [|d l IH]; simpl; [congruence|].
  destruct (isSpace d); auto.
Qed.

Lemma trimEnd_app l x : trimEnd x <> [] -> trimEnd (l ++ x) = l ++ trimEnd x.
Proof.
  intros H. induction l as [|d l IH]; simpl; [reflexivity|].
  rewrite IH. destruct (l ++ trimEnd x) eqn:E; [|reflexivity].
  apply app_eq_nil in E as [_ E]. congruence.
Qed.

(** The value returned for a cleaned text of which the split is known. *)
Lemma split_value_form l c r :
  test isLatin l = true -> test isJapanese l = false -> isJapanese c = true ->
  split_value (trim (l ++ c :: r)) = Some (mkPair (trim l) (trim (c :: r))).
Proof.
  intros Hl Hj Hc.
  pose proof (isJapanese_not_space c Hc) as Hs.
  destruct (trimEnd_head c r Hs) as [t Ht].
  assert (Hl' : test isLatin (trim l) = true)
    by now rewrite (test_trim _ isLatin_not_space).
  assert (Hne : trimStart l <> []).
  { intros E. unfold trim in Hl'. rewrite E in Hl'. discriminate. }
  assert (Hclean : trim (l ++ c :: r) = trimStart l ++ c :: t).
  { unfold trim. rewrite (trimStart_app _ _ Hne), trimEnd_app; rewrite Ht; congruence. }
  assert (Hj' : test isJapanese (trimStart l) = false).
  { apply test_false_In. intros d Hd. apply trimStart_In in Hd.
    revert d Hd. now apply test_false_In. }
  assert (He : trim (trimStart l) = trim l)
    by (unfold trim; now rewrite trimStart_idem).
  assert (Hr : trim (c :: t) = trim (c :: r)).
  { unfold trim. rewrite !(trimStart_head _ _ Hs), <- Ht. apply trimEnd_idem. }
  unfold split_value. rewrite Hclean, (search_app _ _ _ _ Hj' Hc). cbn [index].
  unfold substring_to, substring_from.
  rewrite firstn_length_app, skipn_length_app, He, Hr, Hl'.
  rewrite (test_truthy _ _ Hl').
  unfold trim at 1 2. rewrite (trimStart_head _ _ Hs), Ht. cbn [test existsb truthy].
  rewrite Hc. reflexivity.
Qed.

(** * The extractor *)

(** C1, as stated, fails: in [@cat 猫] the text before the first Japanese
    character holds Latin letters, but they belong to a mention, which the
    cleaning removes; the call returns [null], not a pair. *)
Lemma split_form_fails_on_mention :
  let latinTerm := js "@cat " in
  let targetScriptChar := 0x732B in
  let rest := [] in
  js "@cat 猫" = latinTerm ++ targetScriptChar :: rest /\
  test isLatin latinTerm = true /\
  test isJapanese latinTerm = false /\
  isJapanese targetScriptChar = true /\
  fst (CheckTweets.parseVocabulary (latinTerm ++ targetScriptChar :: rest) no_world)
    = Normal None /\
  fst (CheckTweets.parseVocabulary (latinTerm ++ targetScriptChar :: rest) no_world)
    <> Normal (Some (mkPair (trim latinTerm) (trim (targetScriptChar :: rest)))).
Proof.
  vm_compute. repeat split; discriminate.
Qed.

(** C1 (amended): for every input whose text after the removal of URLs,
    mentions and hashtags has the form [latinTerm ++ targetScriptChar :: rest],
    where [latinTerm] holds a Latin letter and [targetScriptChar] is the
    first Hiragana, Katakana or Kanji character of it, the call returns the
    pair of [trim latinTerm] and [trim (targetScriptChar :: rest)]. *)
Theorem parse_split_form text latinTerm targetScriptChar rest w :
  removals text = latinTerm ++ targetScriptChar :: rest ->
  test isLatin latinTerm = true ->
  test isJapanese latinTerm = false ->
  isJapanese targetScriptChar = true ->
  fst (CheckTweets.parseVocabulary text w)
  = Normal (Some (mkPair (trim latinTerm) (trim (targetScriptChar :: rest)))).
Proof.
  intros Hform Hl Hj Hc.
  rewrite parseVocabulary_value. unfold cleanText. rewrite Hform.
  now rewrite split_value_form.
Qed.

(** An input without URL, mention and hashtag is of that kind as it
    stands. *)
Lemma parse_split_form_plain latinTerm targetScriptChar rest w :
  let text := latinTerm ++ targetScriptChar :: rest in
  has_match match_url text = false ->
  has_match (match_tag at_sign) text = false ->
  has_match (match_tag hash_sign) text = false ->
  test isLatin latinTerm = true ->
  test isJapanese latinTerm = false ->
  isJapanese targetScriptChar = true ->
  fst (CheckTweets.parseVocabulary text w)
  = Normal (Some (mkPair (trim latinTerm) (trim (targetScriptChar :: rest)))).
Proof.
  intros text Hu Hm Hh Hl Hj Hc.
  rewrite parseVocabulary_value. unfold cleanText.
  rewrite (removals_fixed _ Hu Hm Hh). unfold text.
  now rewrite split_value_form.
Qed.

Lemma parse_split_form_witness :
  removals (js " see http://t.co/x #vocab cat 猫 ") = js " see   cat " ++ 0x732B :: js " " /\
  fst (CheckTweets.parseVocabulary (js " see http://t.co/x #vocab cat 猫 ") no_world)
  = Normal (Some (mkPair (js "see   cat") (js "猫"))).
Proof.
  split; [reflexivity|].
  apply (parse_split_form (js " see http://t.co/x #vocab cat 猫 ")
           (js " see   cat ") 0x732B (js " ") no_world); reflexivity.
Defined.

(** The script-split version of [check-tweets] validates the two parts: a
    pair it returns has a Latin letter in its term and a Hiragana, Katakana
    or Kanji character in its translation, and neither is empty after
    trimming; and a candidate term without Latin letter gives [null]. *)
Theorem parsed_pair_valid text w :
  (forall p,
     fst (CheckTweets.parseVocabulary text w) = Normal (Some p) ->
     test isLatin (english p) = true /\
     test isJapanese (japanese p) = true /\
     trim (english p) <> [] /\ trim (japanese p) <> []) /\
  (forall term,
     candidate_term text = Some term -> test isLatin term = false ->
     fst (CheckTweets.parseVocabulary text w) = Normal None).
Proof.
  rewrite parseVocabulary_value. split.
  - intros p [= H].
    apply split_value_Some in H as (l & c & r & _ & _ & _ & -> & -> & Hl & Hj).
    rewrite !trim_idem. repeat split; auto.
    + intros E. rewrite E in Hl. discriminate.
    + intros E. rewrite E in Hj. discriminate.
  - unfold candidate_term, split_value. intros term.
    destruct (search isJapanese (cleanText text)) as [m|]; [|discriminate].
    intros [= <-] ->. reflexivity.
Qed.

Lemma parsed_pair_valid_witness :
  (fst (CheckTweets.parseVocabulary (js "cat 猫") no_world)
   = Normal (Some (mkPair (js "cat") (js "猫"))) /\
   test isLatin (js "cat") = true /\ test isJapanese (js "猫") = true /\
   trim (js "cat") <> [] /\ trim (js "猫") <> []) /\
  (candidate_term (js "#vocab @friend ... 水") = Some (js "...") /\
   test isLatin (js "...") = false /\
   fst (CheckTweets.parseVocabulary (js "#vocab @friend ... 水") no_world)
   = Normal None).
Proof.
  split.
  - split; [reflexivity|].
    exact (proj1 (parsed_pair_valid (js "cat 猫") no_world)
             (mkPair (js "cat") (js "猫")) eq_refl).
  - split; [reflexivity|]. split; [reflexivity|].
    exact (proj2 (parsed_pair_valid (js "#vocab @friend ... 水") no_world)
             (js "...") eq_refl eq_refl).
Defined.

(** C2: the server's [parseVocabulary] breaks the invariant. It looks for
    the Latin letter in the whole cleaned text and tests the term for
    emptiness only: on the text of an exclamation mark, a Kanji and the word
    cat it returns a pair whose term is the exclamation mark, without any
    Latin letter, where the version of [check-tweets], which tests the
    letter on the term, returns [null]. *)
Theorem server_term_without_latin :
  cleanText (js "! 猫 cat") = js "! 猫 cat" /\
  candidate_term (js "! 猫 cat") = Some (js "!") /\
  test isLatin (js "!") = false /\
  test isLatin (cleanText (js "! 猫 cat")) = true /\
  fst (MonitorServer.parseVocabulary (js "! 猫 cat") no_world)
  = Normal (Some (mkPair (js "!") (js "猫 cat"))) /\
  fst (CheckTweets.parseVocabulary (js "! 猫 cat") no_world) = Normal None.
Proof. repeat split; reflexivity. Qed.

(** C3: an input without Hiragana, Katakana and Kanji character gives
    [null]. *)
Theorem no_japanese_absent text w :
  test isJapanese text = false ->
  fst (CheckTweets.parseVocabulary text w) = Normal None.
Proof.
  intros H. rewrite parseVocabulary_value. unfold split_value.
  assert (E : search isJapanese (cleanText text) = None).
  { apply search_None, test_false_In. intros c Hc.
    apply cleanText_In in Hc. revert c Hc. now apply test_false_In. }
  now rewrite E.
Qed.

Lemma no_japanese_absent_witness :
  (test isJapanese (js "   ") = false /\
   fst (CheckTweets.parseVocabulary (js "   ") no_world) = Normal None) /\
  (test isJapanese (js "check this out http://x.co/abc") = false /\
   cleanText (js "http://x.co/abc") = [] /\
   fst (CheckTweets.parseVocabulary (js "check this out http://x.co/abc") no_world)
   = Normal None).
Proof.
  split; [split; [reflexivity|] | split; [reflexivity | split; [reflexivity|]]].
  - apply (no_japanese_absent (js "   ") no_world). reflexivity.
  - apply (no_japanese_absent (js "check this out http://x.co/abc") no_world).
    reflexivity.
Defined.

(** C4: [make a shift シフトの作成] gives the term [make a shift] and the
    translation [シフトの作成]: the text is split at the first Japanese
    character, not at the first space. *)
Theorem parse_make_a_shift :
  forall w,
    fst (CheckTweets.parseVocabulary (js "make a shift シフトの作成") w)
    = Normal (Some (mkPair (js "make a shift") (js "シフトの作成"))).
Proof.
  intros w. rewrite parseVocabulary_value. vm_compute. reflexivity.
Qed.

(** The first version of the handler splits at the first space, and cuts
    the same term short. *)
Lemma first_version_splits_at_space :
  fst (CheckTweetsFirst.parseVocabulary (js "make a shift シフトの作成") no_world)
  = Normal (Some (mkPair (js "make") (js "a shift シフトの作成"))).
Proof. reflexivity. Qed.

(** C5, as stated, fails: the removal of the hashtag of [http#a://x]
    leaves [http://x], which a second cleaning removes. *)
Lemma cleanText_not_idempotent :
  cleanText (js "http#a://x") = js "http://x" /\
  cleanText (cleanText (js "http#a://x")) = [] /\
  cleanText (cleanText (js "http#a://x")) <> cleanText (js "http#a://x").
Proof.
  vm_compute. repeat split; discriminate.
Qed.

(** C5 (amended): cleaning a cleaned text in which no URL is left changes
    nothing. *)
Theorem cleanText_idempotent_without_url text :
  has_match match_url (cleanText text) = false ->
  cleanText (cleanText text) = cleanText text.
Proof.
  intros H. unfold cleanText at 1.
  rewrite (removals_fixed _ H (cleanText_no_mention text) (cleanText_no_hashtag text)).
  apply cleanText_trimmed.
Qed.

Lemma cleanText_idempotent_without_url_witness :
  has_match match_url (cleanText (js " @a#b http://t.co/x cat @猫 #c ")) = false /\
  cleanText (cleanText (js " @a#b http://t.co/x cat @猫 #c "))
  = cleanText (js " @a#b http://t.co/x cat @猫 #c ").
Proof.
  split; [reflexivity|].
  apply (cleanText_idempotent_without_url (js " @a#b http://t.co/x cat @猫 #c ")).
  reflexivity.
Defined.

(** The condition of C5 (amended) is needed: a cleaned text in which a URL
    is left is changed by a second cleaning. *)
Lemma cleanText_changes_with_url text :
  has_match match_url (cleanText text) = true ->
  cleanText (cleanText text) <> cleanText text.
Proof.
  intros H E.
  assert (L : (length (cleanText (cleanText text)) < length (cleanText text))%nat).
  { unfold cleanText at 1.
    pose proof (trim_length (removals (cleanText text))).
    pose proof (replace_all_shorter _ _ H).
    unfold removals, remove_hashtags, remove_mentions, remove_urls in *.
    pose proof (replace_all_length (match_tag at_sign)
                  (replace_all match_url (cleanText text))).
    pose proof (replace_all_length (match_tag hash_sign)
                  (replace_all (match_tag at_sign)
                     (replace_all match_url (cleanText text)))).
    lia. }
  rewrite E in L. lia.
Qed.

(** Only the removal of a mention or of a hashtag can leave a URL: the
    removal of the URLs leaves none and the trim makes none, so an input in
    which the removal of the URLs leaves no mention and no hashtag is
    cleaned once and for all. *)
Lemma cleanText_idempotent_untagged text :
  has_match (match_tag at_sign) (remove_urls text) = false ->
  has_match (match_tag hash_sign) (remove_urls text) = false ->
  cleanText (cleanText text) = cleanText text.
Proof.
  intros Hm Hh.
  assert (E : cleanText text = trim (remove_urls text)).
  { unfold cleanText, removals, remove_mentions, remove_hashtags.
    now rewrite (replace_all_fixed _ _ Hm), (replace_all_fixed _ _ Hh). }
  assert (Hu : has_match match_url (cleanText text) = false).
  { rewrite E. apply has_url_trim, remove_urls_none. }
  unfold cleanText at 1.
  rewrite (removals_fixed _ Hu (cleanText_no_mention text) (cleanText_no_hashtag text)).
  apply cleanText_trimmed.
Qed.

(** C6: a call ends, and ends normally: it returns a pair or [null], and
    raises nothing. *)
Theorem parseVocabulary_total text w :
  exists (r : option VocabularyPair) (w' : World),
    CheckTweets.parseVocabulary text w = (Normal r, w').
Proof.
  rewrite parseVocabulary_run. eauto.
Qed.

(** C7, as stated, fails: a call writes a line to the console. *)
Lemma parseVocabulary_writes_console :
  snd (CheckTweets.parseVocabulary (js "cat 猫") no_world) <> no_world /\
  console (snd (CheckTweets.parseVocabulary (js "cat 猫") no_world))
  = [js "✅ Parsed: " ++ dquote ++ js "cat" ++ dquote ++ js " → "
     ++ dquote ++ js "猫" ++ dquote].
Proof.
  split; [vm_compute; discriminate | reflexivity].
Qed.

(** C7 (amended): the value a call returns depends on the input string
    alone; the call leaves [lastTweetId] as it is, and its one effect is a
    line added to the console, which also depends on the input alone. *)
Theorem parseVocabulary_deterministic text :
  exists (r : option VocabularyPair) (msg : jsstring),
    forall w,
      CheckTweets.parseVocabulary text w
      = (Normal r, mkWorld (lastTweetId w) (console w ++ [msg])).
Proof.
  exists (split_value (cleanText text)), (split_message (cleanText text)).
  intros w. apply parseVocabulary_run.
Qed.

(** C8: the term of a returned pair holds no Hiragana, Katakana or Kanji
    character; those of the cleaned text are all in the translation. *)
Theorem term_has_no_japanese text w p :
  fst (CheckTweets.parseVocabulary text w) = Normal (Some p) ->
  test isJapanese (english p) = false /\
  filter isJapanese (japanese p) = filter isJapanese (cleanText text).
Proof.
  rewrite parseVocabulary_value. intros [= H].
  apply split_value_Some in H as (l & c & r & Hc & Hl & _ & -> & -> & _).
  split.
  - apply test_false_In. intros d Hd. apply trim_In in Hd.
    revert d Hd. now apply test_false_In.
  - rewrite (filter_trim _ isJapanese_not_space), Hc, filter_app.
    unfold test in Hl. rewrite (existsb_filter isJapanese) in Hl.
    destruct (filter isJapanese l); [reflexivity|discriminate].
Qed.

Lemma term_has_no_japanese_witness :
  fst (CheckTweets.parseVocabulary (js "school trip 課外活動 ok") no_world)
  = Normal (Some (mkPair (js "school trip") (js "課外活動 ok"))) /\
  test isJapanese (js "school trip") = false /\
  filter isJapanese (js "課外活動 ok") = filter isJapanese (cleanText (js "school trip 課外活動 ok")).
Proof.
  split; [reflexivity|].
  apply (term_has_no_japanese (js "school trip 課外活動 ok") no_world
           (mkPair (js "school trip") (js "課外活動 ok"))).
  reflexivity.
Defined.

(** C9: the translation of a returned pair starts with a Hiragana,
    Katakana or Kanji character. *)
Theorem translation_starts_japanese text w p :
  fst (CheckTweets.parseVocabulary text w) = Normal (Some p) ->
  exists c t, japanese p = c :: t /\ isJapanese c = true.
Proof.
  rewrite parseVocabulary_value. intros [= H].
  apply split_value_Some in H as (l & c & r & _ & _ & Hc & _ & -> & _).
  destruct (trim_head c r (isJapanese_not_space c Hc)) as [t ->].
  eauto.
Qed.

Lemma translation_starts_japanese_witness :
  fst (CheckTweets.parseVocabulary (js "tea お茶") no_world)
  = Normal (Some (mkPair (js "tea") (js "お茶"))) /\
  exists c t, js "お茶" = c :: t /\ isJapanese c = true.
Proof.
  split; [reflexivity|].
  apply (translation_starts_japanese (js "tea お茶") no_world
           (mkPair (js "tea") (js "お茶"))).
  reflexivity.
Defined.

(** C10: where [CheckTweets.parseVocabulary] returns a pair,
    [MonitorServer.parseVocabulary] returns the same pair. *)
Theorem server_agrees_on_pairs text w w' p :
  fst (CheckTweets.parseVocabulary text w) = Normal (Some p) ->
  fst (MonitorServer.parseVocabulary text w') = Normal (Some p).
Proof.
  rewrite parseVocabulary_value. intros [= H].
  pose proof H as H'.
  apply split_value_Some in H' as (l & c & r & Hc & _ & Hj & _ & _ & Hl & _).
  assert (T1 : test isLatin (cleanText text) = true).
  { rewrite (test_trim _ isLatin_not_space) in Hl. rewrite Hc.
    unfold test in *. rewrite existsb_app, Hl. reflexivity. }
  assert (T2 : test isJapanese (cleanText text) = true).
  { rewrite Hc. unfold test. rewrite existsb_app. cbn [existsb].
    rewrite Hj. now rewrite orb_true_r. }
  unfold MonitorServer.parseVocabulary. rewrite T1, T2. cbn [negb orb].
  unfold split_value in H.
  destruct (search isJapanese (cleanText text)) as [m|]; [|discriminate].
  cbn [get_index]. unfold bind at 1. unfold ret at 1. cbv beta iota.
  destruct (test isLatin _ && test isJapanese _); [|discriminate].
  cbn [andb] in H.
  destruct (truthy _ && truthy _); [|discriminate].
  injection H as <-. reflexivity.
Qed.

Lemma server_agrees_on_pairs_witness :
  fst (CheckTweets.parseVocabulary (js "@eitangos coffee　コーヒー #n5") no_world)
  = Normal (Some (mkPair (js "coffee") (js "コーヒー"))) /\
  fst (MonitorServer.parseVocabulary (js "@eitangos coffee　コーヒー #n5") no_world)
  = Normal (Some (mkPair (js "coffee") (js "コーヒー"))).
Proof.
  split; [reflexivity|].
  apply (server_agrees_on_pairs (js "@eitangos coffee　コーヒー #n5") no_world no_world
           (mkPair (js "coffee") (js "コーヒー"))).
  reflexivity.
Defined.

(** * More about the extractors *)

(** ** The cleaning *)

Lemma subseq_refl s : subseq s s.
Proof. induction s; constructor; auto. Qed.

Lemma subseq_trans a b c : subseq a b -> subseq b c -> subseq a c.
Proof.
  intros Hab Hbc. revert a Hab.
  induction Hbc as [|x b c _ IH|x b c _ IH]; intros a Hab.
  - exact Hab.
  - inversion Hab; subst; constructor; auto.
  - constructor. auto.
Qed.

Lemma scan_subseq m s : forall k, subseq (scan m k s) s.
Proof.
  induction s as [|c r IH]; intros k; [constructor|].
  destruct k as [|k].
  - rewrite scan_0_cons.
    destruct (m (c :: r)) as [[|n]|]; constructor; apply IH.
  - rewrite scan_S_cons. constructor. apply IH.
Qed.

Lemma trimStart_subseq s : subseq (trimStart s) s.
Proof.
  induction s as [|c r IH]; simpl; [constructor|].
  destruct (isSpace c); [now constructor | apply subseq_refl].
Qed.

Lemma trimEnd_subseq s : subseq (trimEnd s) s.
Proof.
  induction s as [|c r IH]; simpl; [constructor|].
  destruct (trimEnd r) as [|x t].
  - destruct (isSpace c); constructor; exact IH.
  - constructor. exact IH.
Qed.

Lemma subseq_length o s : subseq o s -> (length o <= length s)%nat.
Proof. induction 1; simpl; lia. Qed.

Lemma subseq_In o s c : subseq o s -> In c o -> In c s.
Proof. induction 1; simpl; intuition. Qed.

(** X1: the cleaned text is the input with characters deleted: the
    cleaning adds and reorders nothing. *)
Theorem cleanText_subseq text : subseq (cleanText text) text.
Proof.
  unfold cleanText, trim, removals, remove_hashtags, remove_mentions,
    remove_urls, replace_all.
  eapply subseq_trans; [apply trimEnd_subseq|].
  eapply subseq_trans; [apply trimStart_subseq|].
  eapply subseq_trans; [apply scan_subseq|].
  eapply subseq_trans; apply scan_subseq.
Qed.

Lemma trimEnd_ends s a c : trimEnd s = a ++ [c] -> isSpace c = false.
Proof.
  rewrite trimEnd_rev. intros H.
  apply (f_equal (@rev _)) in H. rewrite rev_involutive, rev_unit in H.
  destruct (trimStart_starts (rev s)) as [E|(d & r & E & Hd)];
    rewrite E in H; [discriminate|].
  now injection H as -> _.
Qed.

Lemma cleanText_trimStart text : trimStart (cleanText text) = cleanText text.
Proof. apply trimStart_trimEnd. Qed.

Lemma cleanText_trimEnd text : trimEnd (cleanText text) = cleanText text.
Proof. apply trimEnd_idem. Qed.

Lemma cleanText_head text c r :
  cleanText text = c :: r -> isSpace c = false.
Proof.
  intros E. pose proof (cleanText_trimStart text) as H. rewrite E in H.
  simpl in H. destruct (isSpace c); [|reflexivity].
  pose proof (subseq_length _ _ (trimStart_subseq r)) as L.
  rewrite H in L. simpl in L. lia.
Qed.

Lemma cleanText_last text a c :
  cleanText text = a ++ [c] -> isSpace c = false.
Proof.
  intros E. apply (trimEnd_ends (cleanText text) a c).
  now rewrite cleanText_trimEnd.
Qed.

(** X2: the cleaned text holds no mention and no hashtag, and neither
    starts nor ends with white space. *)
Theorem cleanText_clean text :
  has_match (match_tag at_sign) (cleanText text) = false /\
  has_match (match_tag hash_sign) (cleanText text) = false /\
  (forall c r, cleanText text = c :: r -> isSpace c = false) /\
  (forall a c, cleanText text = a ++ [c] -> isSpace c = false).
Proof.
  split; [apply cleanText_no_mention|].
  split; [apply cleanText_no_hashtag|]. split.
  - intros c r. apply cleanText_head.
  - intros a c. apply cleanText_last.
Qed.

Lemma cleanText_clean_witness :
  cleanText (js "  @eitangos #n5 water 水 http://t.co/x ") = js "water 水" /\
  isSpace 119 = false /\ isSpace 0x6C34 = false.
Proof.
  split; [reflexivity|]. split.
  - apply (proj1 (proj2 (proj2 (cleanText_clean
             (js "  @eitangos #n5 water 水 http://t.co/x ")))) 119 (js "ater 水")).
    reflexivity.
  - apply (proj2 (proj2 (proj2 (cleanText_clean
             (js "  @eitangos #n5 water 水 http://t.co/x ")))) (js "water ") 0x6C34).
    reflexivity.
Defined.

(** X3: each of the three removals and the trim, taken alone, is
    idempotent. *)
Theorem removals_each_idempotent s :
  remove_urls (remove_urls s) = remove_urls s /\
  remove_mentions (remove_mentions s) = remove_mentions s /\
  remove_hashtags (remove_hashtags s) = remove_hashtags s /\
  trim (trim s) = trim s.
Proof.
  split; [apply replace_all_fixed, remove_urls_none|].
  split; [apply replace_all_fixed, replace_all_tag_none|].
  split; [apply replace_all_fixed, replace_all_tag_none|].
  apply trim_idem.
Qed.

(** ** The split at the first Japanese character *)

Lemma trimEnd_gap s : exists gap, s = trimEnd s ++ gap /\ forallb isSpace gap = true.
Proof.
  induction s as [|c r (gap & E & G)]; [exists []; auto|].
  simpl. destruct (trimEnd r) as [|x t].
  - destruct (isSpace c) eqn:Ec.
    + exists (c :: gap). simpl in *. rewrite Ec, G. now rewrite E at 1.
    + exists gap. simpl in *. now rewrite E at 1.
  - exists gap. simpl in *. now rewrite E at 1.
Qed.

(** X4: the split loses white space only: the cleaned text is the term, a
    run of white space and the translation, in that order. *)
Theorem split_reassembles text w p :
  fst (CheckTweets.parseVocabulary text w) = Normal (Some p) ->
  exists gap,
    cleanText text = english p ++ gap ++ japanese p /\
    forallb isSpace gap = true.
Proof.
  rewrite parseVocabulary_value. intros [= H].
  apply split_value_Some in H as (l & c & r & Hc & _ & Hj & -> & -> & Hl & _).
  pose proof (isJapanese_not_space c Hj) as Hs.
  assert (Hl' : trimStart l = l).
  { pose proof (cleanText_trimStart text) as T. rewrite Hc in T.
    destruct l as [|d l]; [reflexivity|]. simpl in *.
    destruct (isSpace d); [|reflexivity].
    pose proof (subseq_length _ _ (trimStart_subseq (l ++ c :: r))) as L.
    rewrite T in L. simpl in L. lia. }
  assert (Hr : trimEnd (c :: r) = c :: r).
  { pose proof (cleanText_trimEnd text) as T. rewrite Hc in T.
    destruct (trimEnd_head c r Hs) as [t Ht].
    rewrite trimEnd_app in T by (rewrite Ht; discriminate).
    now apply app_inv_head in T. }
  destruct (trimEnd_gap l) as (gap & E & G).
  exists gap. split; [|exact G].
  unfold trim. rewrite Hl', (trimStart_head _ _ Hs), Hr, Hc.
  rewrite E at 1. now rewrite <- app_assoc.
Qed.

Lemma split_reassembles_witness :
  fst (CheckTweets.parseVocabulary (js "school trip 　課外活動") no_world)
  = Normal (Some (mkPair (js "school trip") (js "課外活動"))) /\
  exists gap,
    cleanText (js "school trip 　課外活動") = js "school trip" ++ gap ++ js "課外活動" /\
    forallb isSpace gap = true.
Proof.
  split; [reflexivity|].
  apply (split_reassembles (js "school trip 　課外活動") no_world
           (mkPair (js "school trip") (js "課外活動"))).
  reflexivity.
Defined.

(** X5: [CheckTweets.parseVocabulary] returns a pair exactly when, in the
    cleaned text, a Latin letter comes before the first Hiragana, Katakana
    or Kanji character. *)
Theorem parse_accepts_iff text w :
  (exists p, fst (CheckTweets.parseVocabulary text w) = Normal (Some p)) <->
  (exists l c r,
     cleanText text = l ++ c :: r /\ test isLatin l = true /\
     test isJapanese l = false /\ isJapanese c = true).
Proof.
  rewrite parseVocabulary_value. split.
  - intros [p [= H]].
    apply split_value_Some in H as (l & c & r & Hc & Hl & Hj & _ & _ & Ht & _).
    rewrite (test_trim _ isLatin_not_space) in Ht. eauto 10.
  - intros (l & c & r & Hc & Hl & Hj & Hjc).
    rewrite <- cleanText_trimmed, Hc, (split_value_form _ _ _ Hl Hj Hjc). eauto.
Qed.

(** ** The server version *)

Lemma server_parseVocabulary_value text w :
  MonitorServer.parseVocabulary text w = (Normal (server_value (cleanText text)), w).
Proof.
  unfold MonitorServer.parseVocabulary, server_value.
  destruct (negb _ || negb _); [reflexivity|].
  destruct (search isJapanese (cleanText text)) as [m|]; [|reflexivity].
  cbn [get_index]. unfold bind, ret.
  destruct (truthy _ && truthy _); reflexivity.
Qed.

(** What a pair returned by the server version says about the cleaned
    text. *)
Lemma server_value_Some clean p :
  server_value clean = Some p ->
  exists l c r,
    clean = l ++ c :: r /\ test isJapanese l = false /\ isJapanese c = true /\
    english p = trim l /\ japanese p = trim (c :: r) /\
    truthy (trim l) = true /\ test isLatin clean = true.
Proof.
  unfold server_value.
  destruct (test isLatin clean) eqn:T1; [|discriminate].
  destruct (test isJapanese clean); [|discriminate]. cbn [negb orb].
  destruct (search isJapanese clean) as [m|] eqn:E; [|discriminate].
  apply search_Some in E as (c & r & H1 & H2 & _ & H4 & H5 & _).
  unfold substring_to, substring_from. rewrite H2.
  destruct (truthy (trim (firstn (index m) clean))) eqn:T; [|discriminate].
  destruct (truthy (trim (c :: r))); [|discriminate].
  intros [= <-]. simpl. exists (firstn (index m) clean), c, r. auto 10.
Qed.

(** X6: [CheckTweets.parseVocabulary] is the server version followed by one
    more test: it returns the pair the server version returns when the term
    of that pair holds a Latin letter, and [null] otherwise. *)
Theorem check_is_server_filtered text w w' r :
  fst (MonitorServer.parseVocabulary text w') = Normal r ->
  fst (CheckTweets.parseVocabulary text w)
  = Normal match r with
           | Some p => if test isLatin (english p) then Some p else None
           | None => None
           end.
Proof.
  rewrite server_parseVocabulary_value, parseVocabulary_value.
  intros [= <-]. f_equal.
  unfold split_value, server_value.
  destruct (search isJapanese (cleanText text)) as [m|] eqn:E.
  - pose proof E as E'.
    apply search_Some in E' as (c & t & H1 & H2 & _ & H4 & _).
    assert (T2 : test isJapanese (cleanText text) = true).
    { rewrite H1. unfold test. rewrite existsb_app. cbn [existsb].
      rewrite H4. now rewrite orb_true_r. }
    unfold substring_to, substring_from. rewrite T2, H2.
    destruct (trim_head c t (isJapanese_not_space c H4)) as [u ->].
    cbn [test existsb truthy]. rewrite H4. cbn [orb negb].
    rewrite !andb_true_r, orb_false_r.
    destruct (test isLatin (trim (firstn (index m) (cleanText text)))) eqn:T.
    + rewrite (test_truthy _ _ T).
      rewrite (test_trim _ isLatin_not_space) in T.
      assert (T1 : test isLatin (cleanText text) = true).
      { rewrite H1. unfold test in *. now rewrite existsb_app, T. }
      rewrite T1. cbn [negb english]. rewrite (test_trim _ isLatin_not_space), T.
      reflexivity.
    + cbn [andb].
      destruct (negb (test isLatin (cleanText text))); [reflexivity|].
      destruct (truthy (trim (firstn (index m) (cleanText text)))); [|reflexivity].
      cbn [english]. now rewrite T.
  - apply search_None in E. rewrite E. cbn [negb]. now rewrite orb_true_r.
Qed.

Lemma check_is_server_filtered_witness :
  (fst (MonitorServer.parseVocabulary (js "! 猫 cat") no_world)
   = Normal (Some (mkPair (js "!") (js "猫 cat"))) /\
   fst (CheckTweets.parseVocabulary (js "! 猫 cat") no_world) = Normal None) /\
  (fst (MonitorServer.parseVocabulary (js "pen ペン") no_world)
   = Normal (Some (mkPair (js "pen") (js "ペン"))) /\
   fst (CheckTweets.parseVocabulary (js "pen ペン") no_world)
   = Normal (Some (mkPair (js "pen") (js "ペン")))).
Proof.
  split; (split; [reflexivity|]).
  - exact (check_is_server_filtered (js "! 猫 cat") no_world no_world
             (Some (mkPair (js "!") (js "猫 cat"))) eq_refl).
  - exact (check_is_server_filtered (js "pen ペン") no_world no_world
             (Some (mkPair (js "pen") (js "ペン"))) eq_refl).
Defined.

(** X7: a pair returned by the server version has a term that is not empty
    and holds no Hiragana, Katakana or Kanji character, and a translation
    that starts with one; its Latin letter is in the term or in the
    translation. *)
Theorem server_pair_shape text w p :
  fst (MonitorServer.parseVocabulary text w) = Normal (Some p) ->
  english p <> [] /\
  test isJapanese (english p) = false /\
  (exists c t, japanese p = c :: t /\ isJapanese c = true) /\
  test isLatin (english p) || test isLatin (japanese p) = true.
Proof.
  rewrite server_parseVocabulary_value. intros [= H].
  apply server_value_Some in H as (l & c & r & Hc & Hl & Hj & -> & -> & Ht & T1).
  split; [intros E; rewrite E in Ht; discriminate|].
  split.
  { apply test_false_In. intros d Hd. apply trim_In in Hd.
    revert d Hd. now apply test_false_In. }
  split.
  { destruct (trim_head c r (isJapanese_not_space c Hj)) as [t ->]. eauto. }
  rewrite !(test_trim _ isLatin_not_space).
  rewrite Hc in T1. unfold test in *. now rewrite existsb_app in T1.
Qed.

Lemma server_pair_shape_witness :
  fst (MonitorServer.parseVocabulary (js "→ 本 book") no_world)
  = Normal (Some (mkPair (js "→") (js "本 book"))) /\
  js "→" <> [] /\
  test isJapanese (js "→") = false /\
  (exists c t, js "本 book" = c :: t /\ isJapanese c = true) /\
  test isLatin (js "→") || test isLatin (js "本 book") = true.
Proof.
  split; [reflexivity|].
  apply (server_pair_shape (js "→ 本 book") no_world (mkPair (js "→") (js "本 book"))).
  reflexivity.
Defined.

(** ** The first version *)

Lemma first_parseVocabulary_run text w :
  CheckTweetsFirst.parseVocabulary text w
  = (Normal (CheckTweetsFirst.try_patterns CheckTweetsFirst.patterns (cleanText text)), w).
Proof. reflexivity. Qed.

Lemma first_parseVocabulary_value text w r :
  fst (CheckTweetsFirst.parseVocabulary text w) = Normal r ->
  CheckTweetsFirst.try_patterns CheckTweetsFirst.patterns (cleanText text) = r.
Proof.
  rewrite first_parseVocabulary_run. unfold fst. congruence.
Qed.

(** A pair comes from one pattern that matched, and both of its trimmed
    groups passed the tests. *)
Lemma try_patterns_Some ps clean p :
  CheckTweetsFirst.try_patterns ps clean = Some p ->
  exists pattern m1 m2,
    In pattern ps /\ pattern clean = Some (m1, m2) /\
    english p = trim m1 /\ japanese p = trim m2 /\
    test isLatin (trim m1) = true /\ test isJapanese (trim m2) = true.
Proof.
  induction ps as [|pattern ps IH]; simpl; [discriminate|].
  assert (Hrec : CheckTweetsFirst.try_patterns ps clean = Some p ->
                 exists pattern0 m1 m2,
                   (pattern = pattern0 \/ In pattern0 ps) /\
                   pattern0 clean = Some (m1, m2) /\
                   english p = trim m1 /\ japanese p = trim m2 /\
                   test isLatin (trim m1) = true /\ test isJapanese (trim m2) = true).
  { intros H. destruct (IH H) as (q & m1 & m2 & Hq & Hrest). exists q, m1, m2. auto. }
  destruct (pattern clean) as [[m1 m2]|] eqn:E; [|exact Hrec].
  destruct (truthy m1 && truthy m2); [|exact Hrec].
  destruct (test isLatin (trim m1)) eqn:T1; [|exact Hrec].
  destruct (test isJapanese (trim m2)) eqn:T2; [|exact Hrec].
  intros [= <-]. exists pattern, m1, m2. simpl. auto 10.
Qed.

Lemma lazy_group_Some sep s : forall g g1 g2,
  CheckTweetsFirst.lazy_group sep g s = Some (g1, g2) ->
  exists a b, s = a ++ b /\ a <> [] /\ g1 = g ++ a /\ sep b = Some g2.
Proof.
  induction s as [|c r IH]; simpl; intros g g1 g2; [discriminate|].
  destruct (CheckTweetsFirst.isDot c); [|discriminate].
  destruct (sep r) as [group2|] eqn:E.
  - intros [= <- <-]. exists [c], r. repeat split; auto. discriminate.
  - intros H. destruct (IH _ _ _ H) as (a & b & -> & _ & -> & Hb).
    exists (c :: a), b. rewrite <- app_assoc. repeat split; auto. discriminate.
Qed.

Lemma run_firstn p r : forall k,
  (k <= run p r)%nat -> forallb p (firstn k r) = true.
Proof.
  induction r as [|c r IH]; intros k; simpl.
  - intros H. now replace k with 0%nat by lia.
  - destruct k as [|k]; [reflexivity|]. simpl.
    destruct (p c); simpl; [|lia]. intros H. apply IH. lia.
Qed.

Lemma spaces_then_rest_Some r g2 : forall j,
  CheckTweetsFirst.spaces_then_rest j r = Some g2 ->
  exists k, (1 <= k <= j)%nat /\ g2 = skipn k r.
Proof.
  induction j as [|j IH]; simpl; [discriminate|].
  destruct (CheckTweetsFirst.rest_of_line _).
  - intros [= <-]. exists (S j). split; [lia|reflexivity].
  - intros H. destruct (IH H) as (k & Hk & ->). exists k. split; [lia|reflexivity].
Qed.

(** Both separators take white space, and one character at least. *)
Lemma sep_many_Some r g2 :
  CheckTweetsFirst.sep_many r = Some g2 ->
  exists ws, r = ws ++ g2 /\ ws <> [] /\ forallb isSpace ws = true.
Proof.
  unfold CheckTweetsFirst.sep_many. intros H.
  apply spaces_then_rest_Some in H as (k & Hk & ->).
  exists (firstn k r). split; [now rewrite firstn_skipn|]. split.
  - destruct r as [|c r]; [simpl in Hk; lia|].
    destruct k; [lia|]. discriminate.
  - apply run_firstn. lia.
Qed.

Lemma sep_one_Some r g2 :
  CheckTweetsFirst.sep_one r = Some g2 ->
  exists ws, r = ws ++ g2 /\ ws <> [] /\ forallb isSpace ws = true.
Proof.
  unfold CheckTweetsFirst.sep_one. destruct r as [|c r]; [discriminate|].
  destruct (isSpace c) eqn:E; [|discriminate].
  destruct (CheckTweetsFirst.rest_of_line r); [|discriminate].
  intros [= <-]. exists [c]. simpl. rewrite E. repeat split. discriminate.
Qed.

Lemma patterns_sep pattern :
  In pattern CheckTweetsFirst.patterns ->
  pattern = CheckTweetsFirst.lazy_group CheckTweetsFirst.sep_many [] \/
  pattern = CheckTweetsFirst.lazy_group CheckTweetsFirst.sep_one [].
Proof.
  simpl. intros [H|[H|[H|[]]]]; auto.
Qed.

(** A match of any of the three patterns cuts the text at white space. *)
Lemma pattern_Some pattern clean m1 m2 :
  In pattern CheckTweetsFirst.patterns ->
  pattern clean = Some (m1, m2) ->
  exists ws,
    clean = m1 ++ ws ++ m2 /\ m1 <> [] /\ ws <> [] /\ forallb isSpace ws = true.
Proof.
  intros Hin H.
  destruct (patterns_sep _ Hin) as [-> | ->];
    apply lazy_group_Some in H as (a & b & -> & Ha & -> & Hb);
    [apply sep_many_Some in Hb | apply sep_one_Some in Hb];
    destruct Hb as (ws & -> & Hws & Hsp); exists ws; auto.
Qed.

(** X8: a pair returned by the first version has a Latin letter in its
    term and a Hiragana, Katakana or Kanji character in its translation;
    both are trimmed, and the cleaned text is cut at white space: it is a
    text that trims to the term, white space, and a text that trims to the
    translation. *)
Theorem first_pair_shape text w p :
  fst (CheckTweetsFirst.parseVocabulary text w) = Normal (Some p) ->
  test isLatin (english p) = true /\
  test isJapanese (japanese p) = true /\
  trim (english p) = english p /\ trim (japanese p) = japanese p /\
  exists m1 ws m2,
    cleanText text = m1 ++ ws ++ m2 /\ ws <> [] /\ forallb isSpace ws = true /\
    english p = trim m1 /\ japanese p = trim m2.
Proof.
  intros H. apply first_parseVocabulary_value in H.
  apply try_patterns_Some in H as (pattern & m1 & m2 & Hin & Hm & -> & -> & T1 & T2).
  destruct (pattern_Some _ _ _ _ Hin Hm) as (ws & Hc & _ & Hws & Hsp).
  rewrite !trim_idem. repeat split; auto.
  exists m1, ws, m2. auto.
Qed.

Lemma first_pair_shape_witness :
  fst (CheckTweetsFirst.parseVocabulary (js "school trip 課外活動") no_world)
  = Normal (Some (mkPair (js "school") (js "trip 課外活動"))) /\
  test isLatin (js "school") = true /\
  test isJapanese (js "trip 課外活動") = true /\
  trim (js "school") = js "school" /\ trim (js "trip 課外活動") = js "trip 課外活動" /\
  exists m1 ws m2,
    cleanText (js "school trip 課外活動") = m1 ++ ws ++ m2 /\ ws <> [] /\
    forallb isSpace ws = true /\
    js "school" = trim m1 /\ js "trip 課外活動" = trim m2.
Proof.
  split; [reflexivity|].
  apply (first_pair_shape (js "school trip 課外活動") no_world
           (mkPair (js "school") (js "trip 課外活動"))).
  reflexivity.
Defined.

(** X9: the first version needs white space to split at: for a cleaned
    text without white space it returns [null], Japanese characters or
    not. *)
Theorem first_needs_space text w :
  test isSpace (cleanText text) = false ->
  fst (CheckTweetsFirst.parseVocabulary text w) = Normal None.
Proof.
  intros Hsp. rewrite first_parseVocabulary_run. unfold fst. f_equal.
  destruct (CheckTweetsFirst.try_patterns CheckTweetsFirst.patterns (cleanText text))
    as [p|] eqn:E; [|reflexivity].
  apply try_patterns_Some in E as (pattern & m1 & m2 & Hin & Hm & _).
  destruct (pattern_Some _ _ _ _ Hin Hm) as (ws & Hc & _ & Hws & Hall).
  destruct ws as [|c ws]; [congruence|].
  simpl in Hall. apply andb_true_iff in Hall as [Hc' _].
  assert (Hin' : In c (cleanText text)).
  { rewrite Hc. apply in_or_app. right. now left. }
  rewrite (proj1 (test_false_In _ _) Hsp c Hin') in Hc'. discriminate.
Qed.

Lemma first_needs_space_witness :
  test isSpace (cleanText (js "cat猫")) = false /\
  fst (CheckTweetsFirst.parseVocabulary (js "cat猫") no_world) = Normal None /\
  fst (CheckTweets.parseVocabulary (js "cat猫") no_world)
  = Normal (Some (mkPair (js "cat") (js "猫"))).
Proof.
  split; [reflexivity|]. split; [|reflexivity].
  apply (first_needs_space (js "cat猫") no_world). reflexivity.
Defined.

Lemma trimEnd_fixed_tail c r : trimEnd (c :: r) = c :: r -> r <> [] -> trimEnd r = r.
Proof.
  simpl. destruct (trimEnd r) as [|x t].
  - destruct (isSpace c); [discriminate|]. intros [= <-]. congruence.
  - now intros [= <-].
Qed.

Lemma trimEnd_fixed_space c r : trimEnd (c :: r) = c :: r -> isSpace c = true -> r <> [].
Proof.
  simpl. intros H Hc ->. simpl in H. rewrite Hc in H. discriminate.
Qed.

(** In a text that does not end with white space, something follows a run
    of white space. *)
Lemma skipn_run_space r :
  trimEnd r = r -> r <> [] -> skipn (run isSpace r) r <> [].
Proof.
  induction r as [|c r IH]; [congruence|]. intros H _. simpl run.
  destruct (isSpace c) eqn:Ec; [|discriminate].
  pose proof (trimEnd_fixed_space _ _ H Ec) as Hr.
  simpl. apply IH; [now apply trimEnd_fixed_tail in H|exact Hr].
Qed.

Lemma forallb_skipn (p : code_unit -> bool) s : forall k,
  forallb p s = true -> forallb p (skipn k s) = true.
Proof.
  induction s as [|c r IH]; intros [|k]; simpl; auto.
  intros H. apply andb_true_iff in H as [_ H]. auto.
Qed.

Lemma truthy_nonempty s : s <> [] -> truthy s = true.
Proof. destruct s; [congruence|reflexivity]. Qed.

(** Where the text has no LineTerminator and does not end with white space,
    both separators match at any white space. *)
Lemma sep_many_matches c r :
  isSpace c = true -> forallb CheckTweetsFirst.isDot (c :: r) = true ->
  trimEnd (c :: r) = c :: r ->
  CheckTweetsFirst.sep_many (c :: r) <> None.
Proof.
  intros Hc Hd Ht. unfold CheckTweetsFirst.sep_many.
  assert (Hrun : exists j, run isSpace (c :: r) = S j)
    by (simpl; rewrite Hc; eauto).
  destruct Hrun as [j Hj].
  pose proof (skipn_run_space (c :: r) Ht ltac:(discriminate)) as Hne.
  rewrite Hj in *. cbn [CheckTweetsFirst.spaces_then_rest].
  unfold CheckTweetsFirst.rest_of_line at 1.
  rewrite (truthy_nonempty _ Hne), (forallb_skipn _ _ _ Hd). discriminate.
Qed.

Lemma sep_one_matches c r :
  isSpace c = true -> forallb CheckTweetsFirst.isDot (c :: r) = true ->
  trimEnd (c :: r) = c :: r ->
  CheckTweetsFirst.sep_one (c :: r) <> None.
Proof.
  intros Hc Hd Ht. unfold CheckTweetsFirst.sep_one, CheckTweetsFirst.rest_of_line.
  simpl in Hd. apply andb_true_iff in Hd as [_ Hd].
  rewrite Hc, Hd, (truthy_nonempty _ (trimEnd_fixed_space _ _ Ht Hc)). discriminate.
Qed.

(** With such a separator, the lazy group stops before the first white
    space. *)
Lemma lazy_group_token sep :
  (forall c r, isSpace c = true -> forallb CheckTweetsFirst.isDot (c :: r) = true ->
               trimEnd (c :: r) = c :: r -> sep (c :: r) <> None) ->
  forall s g g1 g2,
    forallb CheckTweetsFirst.isDot s = true -> trimEnd s = s ->
    head_space s = false ->
    CheckTweetsFirst.lazy_group sep g s = Some (g1, g2) ->
    exists a, g1 = g ++ a /\ test isSpace a = false.
Proof.
  intros Hsep. induction s as [|c r IH]; intros g g1 g2 Hd Ht Hh; [discriminate|].
  simpl in Hh. simpl. pose proof Hd as Hd'.
  simpl in Hd'. apply andb_true_iff in Hd' as [Hc Hr]. rewrite Hc.
  destruct (sep r) as [group2|] eqn:E.
  - intros [= <- <-]. exists [c]. simpl. now rewrite Hh.
  - destruct r as [|d r]; [discriminate|].
    pose proof (trimEnd_fixed_tail _ _ Ht ltac:(discriminate)) as Ht'.
    destruct (isSpace d) eqn:Ed.
    { exfalso. now apply (Hsep d r Ed Hr Ht'). }
    intros H. destruct (IH _ _ _ Hr Ht' Ed H) as (a & -> & Ha).
    exists (c :: a). rewrite <- app_assoc. split; [reflexivity|].
    simpl. now rewrite Hh.
Qed.

(** X10: when the cleaned text has no line break, the term the first
    version returns holds no white space: a term of several words is cut
    after its first word. *)
Theorem first_term_one_word text w p :
  forallb CheckTweetsFirst.isDot (cleanText text) = true ->
  fst (CheckTweetsFirst.parseVocabulary text w) = Normal (Some p) ->
  test isSpace (english p) = false.
Proof.
  intros Hd H. apply first_parseVocabulary_value in H.
  apply try_patterns_Some in H as (pattern & m1 & m2 & Hin & Hm & -> & _).
  assert (Hh : head_space (cleanText text) = false).
  { destruct (cleanText text) as [|c r] eqn:E.
    - destruct (patterns_sep _ Hin) as [-> | ->]; discriminate.
    - simpl. apply (cleanText_head text c r E). }
  assert (Ha : exists a, m1 = [] ++ a /\ test isSpace a = false).
  { destruct (patterns_sep _ Hin) as [-> | ->].
    - exact (lazy_group_token _ sep_many_matches _ _ _ _ Hd (cleanText_trimEnd text) Hh Hm).
    - exact (lazy_group_token _ sep_one_matches _ _ _ _ Hd (cleanText_trimEnd text) Hh Hm). }
  destruct Ha as (a & -> & Ha). simpl.
  apply test_false_In. intros c Hc. apply trim_In in Hc.
  revert c Hc. now apply test_false_In.
Qed.

Lemma first_term_one_word_witness :
  forallb CheckTweetsFirst.isDot (cleanText (js "ice cream アイスクリーム")) = true /\
  fst (CheckTweetsFirst.parseVocabulary (js "ice cream アイスクリーム") no_world)
  = Normal (Some (mkPair (js "ice") (js "cream アイスクリーム"))) /\
  test isSpace (js "ice") = false.
Proof.
  split; [reflexivity|]. split; [reflexivity|].
  apply (first_term_one_word (js "ice cream アイスクリーム") no_world
           (mkPair (js "ice") (js "cream アイスクリーム"))); reflexivity.
Defined.

(** *** The third pattern *)

Lemma trimStart_spaces sp b : forallb isSpace sp = true -> trimStart (sp ++ b) = trimStart b.
Proof.
  induction sp as [|c sp IH]; simpl; [reflexivity|].
  intros H. apply andb_true_iff in H as [-> H]. auto.
Qed.

Lemma trimEnd_spaces a sp : forallb isSpace sp = true -> trimEnd (a ++ sp) = trimEnd a.
Proof.
  intros H. induction a as [|c a IH]; simpl.
  - induction sp as [|d sp IHsp]; simpl; [reflexivity|].
    simpl in H. apply andb_true_iff in H as [Hd H]. now rewrite (IHsp H), Hd.
  - now rewrite IH.
Qed.

Lemma trimStart_nil_spaces a : trimStart a = [] -> forallb isSpace a = true.
Proof.
  induction a as [|c a IH]; simpl; [reflexivity|].
  destruct (isSpace c); [exact IH|discriminate].
Qed.

Lemma trim_spaces_app sp b : forallb isSpace sp = true -> trim (sp ++ b) = trim b.
Proof.
  intros H. unfold trim. now rewrite trimStart_spaces.
Qed.

Lemma trim_app_spaces a sp : forallb isSpace sp = true -> trim (a ++ sp) = trim a.
Proof.
  intros H. unfold trim. destruct (trimStart a) as [|c t] eqn:E.
  - apply trimStart_nil_spaces in E.
    rewrite (trimStart_spaces a sp E), <- (app_nil_r sp), (trimStart_spaces sp [] H).
    reflexivity.
  - rewrite trimStart_app by congruence. rewrite E. now apply trimEnd_spaces.
Qed.

Lemma lazy_group_dots sep s : forall g g1 g2,
  CheckTweetsFirst.lazy_group sep g s = Some (g1, g2) ->
  exists a b,
    s = a ++ b /\ a <> [] /\ g1 = g ++ a /\ sep b = Some g2 /\
    forallb CheckTweetsFirst.isDot a = true.
Proof.
  induction s as [|c r IH]; simpl; intros g g1 g2; [discriminate|].
  destruct (CheckTweetsFirst.isDot c) eqn:Ec; [|discriminate].
  destruct (sep r) as [group2|] eqn:E.
  - intros [= <- <-]. exists [c], r. simpl. rewrite Ec.
    repeat split; auto. discriminate.
  - intros H. destruct (IH _ _ _ H) as (a & b & -> & _ & -> & Hb & Ha).
    exists (c :: a), b. rewrite <- app_assoc. simpl. rewrite Ec, Ha.
    repeat split; auto. discriminate.
Qed.

Lemma spaces_then_rest_S j r :
  CheckTweetsFirst.spaces_then_rest (S j) r
  = if CheckTweetsFirst.rest_of_line (skipn (S j) r) then Some (skipn (S j) r)
    else CheckTweetsFirst.spaces_then_rest j r.
Proof. reflexivity. Qed.

Lemma spaces_then_rest_line r g2 : forall j,
  CheckTweetsFirst.spaces_then_rest j r = Some g2 ->
  CheckTweetsFirst.rest_of_line g2 = true.
Proof.
  induction j as [|j IH]; [discriminate|]. rewrite spaces_then_rest_S.
  destruct (CheckTweetsFirst.rest_of_line (skipn (S j) r)) eqn:E; [|exact IH].
  now intros [= <-].
Qed.

Lemma spaces_then_rest_found r : forall j,
  (1 <= j)%nat -> CheckTweetsFirst.rest_of_line (skipn 1 r) = true ->
  CheckTweetsFirst.spaces_then_rest j r <> None.
Proof.
  induction j as [|j IH]; [lia|]. intros _ H. rewrite spaces_then_rest_S.
  destruct (CheckTweetsFirst.rest_of_line (skipn (S j) r)) eqn:E; [discriminate|].
  destruct j as [|j]; [congruence|]. apply IH; [lia|exact H].
Qed.

(** Where the one-space separator matches, the many-spaces separator
    matches, and takes more white space. *)
Lemma sep_one_many r b1 :
  CheckTweetsFirst.sep_one r = Some b1 ->
  exists b2 sp,
    CheckTweetsFirst.sep_many r = Some b2 /\ b1 = sp ++ b2 /\
    forallb isSpace sp = true.
Proof.
  unfold CheckTweetsFirst.sep_one. destruct r as [|d r]; [discriminate|].
  destruct (isSpace d) eqn:Ed; [|discriminate].
  destruct (CheckTweetsFirst.rest_of_line r) eqn:El; [|discriminate].
  intros [= ->].
  destruct (CheckTweetsFirst.sep_many (d :: b1)) as [b2|] eqn:E.
  - destruct (sep_many_Some _ _ E) as (ws & Hws & Hne & Hsp).
    destruct ws as [|e ws]; [congruence|].
    injection Hws as -> ->. simpl in Hsp. apply andb_true_iff in Hsp as [_ Hsp].
    eauto.
  - exfalso. revert E. apply spaces_then_rest_found; [|exact El].
    simpl. rewrite Ed. lia.
Qed.

(** Where the third pattern matches, the first one matches, and the groups
    of the two differ in white space only. *)
Lemma lazy_one_many s : forall g a1 b1,
  CheckTweetsFirst.lazy_group CheckTweetsFirst.sep_one g s = Some (a1, b1) ->
  exists a2 b2,
    CheckTweetsFirst.lazy_group CheckTweetsFirst.sep_many g s = Some (a2, b2) /\
    trim a1 = trim a2 /\ trim b1 = trim b2.
Proof.
  induction s as [|c r IH]; intros g a1 b1; [discriminate|].
  simpl. destruct (CheckTweetsFirst.isDot c); [|discriminate].
  destruct (CheckTweetsFirst.sep_one r) as [b|] eqn:E1.
  - intros [= <- <-].
    destruct (sep_one_many _ _ E1) as (b2 & sp & -> & -> & Hsp).
    exists (g ++ [c]), b2. split; [reflexivity|]. split; [reflexivity|].
    now apply trim_spaces_app.
  - intros H.
    destruct (CheckTweetsFirst.sep_many r) as [b2|] eqn:E2; [|now apply IH].
    exists (g ++ [c]), b2. split; [reflexivity|].
    destruct (sep_many_Some _ _ E2) as (ws & Hr & Hne & Hsp).
    pose proof (spaces_then_rest_line _ _ _ E2) as Hline.
    apply lazy_group_dots in H as (a & b & Hab & _ & -> & Hb & Ha).
    unfold CheckTweetsFirst.sep_one in Hb. destruct b as [|e b]; [discriminate|].
    destruct (isSpace e) eqn:Ee; [|discriminate].
    destruct (CheckTweetsFirst.rest_of_line b); [|discriminate].
    injection Hb as ->.
    destruct ws as [|d ws]; [congruence|].
    simpl in Hsp. apply andb_true_iff in Hsp as [Hd Hsp].
    rewrite Hr in Hab. apply app_eq_app in Hab as [l [[Hl1 Hl2]|[Hl1 Hl2]]].
    + (* the third pattern stopped inside [ws] *)
      assert (Hsa : forallb isSpace a = true).
      { assert (Hall : forallb isSpace (d :: ws) = true) by (simpl; now rewrite Hd).
        rewrite Hl1, forallb_app in Hall. now apply andb_true_iff in Hall. }
      assert (Hsl : forallb isSpace l = true).
      { assert (Hall : forallb isSpace (d :: ws) = true) by (simpl; now rewrite Hd).
        rewrite Hl1, forallb_app in Hall. now apply andb_true_iff in Hall. }
      split.
      * now apply trim_app_spaces.
      * rewrite <- (trim_spaces_app [e] b1) by (simpl; now rewrite Ee).
        cbn [app]. rewrite Hl2. now apply trim_spaces_app.
    + (* the first pattern took all of [ws] and more: [ws] has no line break,
         and the one-space separator matched at its start *)
      exfalso. rewrite Hl1, forallb_app in Ha. apply andb_true_iff in Ha as [Ha _].
      simpl in Ha. apply andb_true_iff in Ha as [_ Ha].
      unfold CheckTweetsFirst.sep_one in E1. rewrite Hr in E1.
      cbn [app] in E1. rewrite Hd in E1.
      unfold CheckTweetsFirst.rest_of_line in E1, Hline.
      apply andb_true_iff in Hline as [Ht Hdots].
      rewrite forallb_app, Ha, Hdots in E1.
      destruct (ws ++ b2) eqn:Ew; [|discriminate].
      apply app_eq_nil in Ew as [_ ->]. discriminate.
Qed.

Lemma lazy_many_truthy s g g1 g2 :
  CheckTweetsFirst.lazy_group CheckTweetsFirst.sep_many g s = Some (g1, g2) ->
  truthy g1 && truthy g2 = true.
Proof.
  intros H. pose proof H as H'.
  apply lazy_group_Some in H as (a & b & _ & Ha & -> & Hb).
  apply spaces_then_rest_line in Hb. unfold CheckTweetsFirst.rest_of_line in Hb.
  apply andb_true_iff in Hb as [-> _].
  destruct a; [congruence|]. now destruct g.
Qed.

(** X11: the second and the third pattern never add a result: what the
    first version returns is what its first pattern alone gives. *)
Theorem first_pattern_decides text w :
  fst (CheckTweetsFirst.parseVocabulary text w)
  = Normal (CheckTweetsFirst.try_patterns
              [CheckTweetsFirst.lazy_group CheckTweetsFirst.sep_many []]
              (cleanText text)).
Proof.
  rewrite first_parseVocabulary_run. unfold fst. f_equal.
  unfold CheckTweetsFirst.patterns.
  generalize (cleanText text). intros clean.
  cbn [CheckTweetsFirst.try_patterns].
  destruct (CheckTweetsFirst.lazy_group CheckTweetsFirst.sep_many [] clean)
    as [[m1 m2]|] eqn:E1.
  - rewrite (lazy_many_truthy _ _ _ _ E1).
    destruct (test isLatin (trim m1) && test isJapanese (trim m2)) eqn:T;
      [reflexivity|].
    destruct (CheckTweetsFirst.lazy_group CheckTweetsFirst.sep_one [] clean)
      as [[a1 b1]|] eqn:E3; [|reflexivity].
    destruct (lazy_one_many _ _ _ _ E3) as (a2 & b2 & E & -> & ->).
    rewrite E1 in E. injection E as <- <-. rewrite T.
    now destruct (truthy a1 && truthy b1).
  - destruct (CheckTweetsFirst.lazy_group CheckTweetsFirst.sep_one [] clean)
      as [[a1 b1]|] eqn:E3; [|reflexivity].
    destruct (lazy_one_many _ _ _ _ E3) as (a2 & b2 & E & _). congruence.
Qed.

(** * The callers *)

Section AsyncRules.

Context `{Outside}.

Variable R : Machine -> Machine -> Prop.
Hypothesis R_refl : forall st, R st st.
Hypothesis R_trans : forall a b c, R a b -> R b c -> R a c.

Lemma returns_settles {A} (m : Async A) : returns R m -> settles R m.
Proof.
  intros Hm st. destruct (Hm st) as (a & st' & E & HR). eauto 6.
Qed.

Lemma returns_aret {A} (a : A) : returns R (aret a).
Proof. intros st. exists a, st. auto. Qed.

Lemma settles_athrow {A} e : settles R (athrow e : Async A).
Proof. intros st. exists st. split; [auto|]. right. exists e. reflexivity. Qed.

Lemma settles_await {A} (p : Settled A) : settles R (await p).
Proof.
  intros st. exists st. split; [auto|]. unfold await.
  destruct p as [a|e]; simpl; [left; exists a | right; exists e]; reflexivity.
Qed.

Lemma returns_abind {A B} (m : Async A) (f : A -> Async B) :
  returns R m -> (forall a, returns R (f a)) -> returns R (abind m f).
Proof.
  intros Hm Hf st. destruct (Hm st) as (a & st1 & E & R1).
  destruct (Hf a st1) as (b & st2 & E2 & R2).
  exists b, st2. unfold abind. rewrite E. eauto.
Qed.

Lemma settles_abind {A B} (m : Async A) (f : A -> Async B) :
  settles R m -> (forall a, settles R (f a)) -> settles R (abind m f).
Proof.
  intros Hm Hf st. destruct (Hm st) as (st1 & R1 & [[a E]|[e E]]).
  - destruct (Hf a st1) as (st2 & R2 & Hres).
    exists st2. split; [eauto|]. unfold abind. now rewrite E.
  - exists st1. split; [auto|]. right. exists e. unfold abind. now rewrite E.
Qed.

Lemma returns_try_catch {A} (m : Async A) handler :
  settles R m -> (forall e, returns R (handler e)) -> returns R (try_catch m handler).
Proof.
  intros Hm Hh st. destruct (Hm st) as (st1 & R1 & [[a E]|[e E]]).
  - exists a, st1. unfold try_catch. rewrite E. auto.
  - destruct (Hh e st1) as (a & st2 & E2 & R2).
    exists a, st2. unfold try_catch. rewrite E. eauto.
Qed.

Lemma returns_if {A} (b : bool) (m1 m2 : Async A) :
  returns R m1 -> returns R m2 -> returns R (if b then m1 else m2).
Proof. now destruct b. Qed.

Lemma settles_if {A} (b : bool) (m1 m2 : Async A) :
  settles R m1 -> settles R m2 -> settles R (if b then m1 else m2).
Proof. now destruct b. Qed.

End AsyncRules.

Section ServerProperties.

Context `{Outside}.

Lemma log_run msg st :
  log msg st
  = (Resolved tt,
     mkMachine (outside st)
       (mkWorld (lastTweetId (world st)) (console (world st) ++ [msg]))
       (stderr st)).
Proof. reflexivity. Qed.

Lemma console_error_run args st :
  console_error args st
  = (Resolved tt, mkMachine (outside st) (world st) (stderr st ++ [args])).
Proof. reflexivity. Qed.

Lemma call_run {A} (f : Env -> Settled A * Env) st :
  call f st
  = (settle (fst (f (outside st))),
     mkMachine (snd (f (outside st))) (world st) (stderr st)).
Proof. unfold call. now destruct (f (outside st)). Qed.

Lemma getLastTweetId_run st :
  exists r st', Server.getLastTweetId st = (Resolved r, st').
Proof.
  unfold Server.getLastTweetId, try_catch, abind, observe.
  destruct (fs_existsSync _ (outside st)).
  - rewrite call_run.
    destruct (fs_readFileSync _ (outside st)) as [[content|e] env]; simpl;
      eexists _, _; reflexivity.
  - exists None, st. reflexivity.
Qed.

(** X12: [getLastTweetId] never throws and writes nothing to the standard
    output; the id it returns is trimmed, and without the file it returns
    [null] and touches nothing. *)
Theorem getLastTweetId_total st :
  exists r st',
    Server.getLastTweetId st = (Resolved r, st') /\
    world st' = world st /\
    (forall id, r = Some id -> trim id = id) /\
    (fs_existsSync (Server.lastTweetIdFile Server.CONFIG) (outside st) = false ->
     r = None /\ st' = st).
Proof.
  unfold Server.getLastTweetId, try_catch, abind, observe.
  destruct (fs_existsSync _ (outside st)) eqn:E.
  - rewrite call_run.
    destruct (fs_readFileSync _ (outside st)) as [[content|e] env]; simpl.
    + eexists _, _. split; [reflexivity|]. split; [reflexivity|]. split.
      * intros id [= <-]. apply trim_idem.
      * discriminate.
    + eexists _, _. split; [reflexivity|]. split; [reflexivity|]. split; discriminate.
  - exists None, st. repeat split; auto. discriminate.
Qed.

(** *** The polling under an invariant of the outside

    [E] relates the outside before and after a call. When every call of the
    file system, of the network and of the clock, the listing of the
    documents and [uploadToAppwrite] stay within [E], so does a poll; and a
    poll returns. *)
Section Invariant.

Variable E : Env -> Env -> Prop.
Hypothesis E_refl : forall env, E env env.
Hypothesis E_trans : forall a b c, E a b -> E b c -> E a c.
Hypothesis E_read : forall path env, E env (snd (fs_readFileSync path env)).
Hypothesis E_write : forall path content env, E env (snd (fs_writeFileSync path content env)).
Hypothesis E_fetch : forall url headers env, E env (snd (fetch url headers env)).
Hypothesis E_now : forall env, E env (snd (Date_now env)).

Lemma within_refl st : (within E) st st.
Proof. apply E_refl. Qed.

Lemma within_trans a b c : (within E) a b -> (within E) b c -> (within E) a c.
Proof. unfold within. eauto. Qed.

Hypothesis upload_within :
  forall english japanese, returns (within E) (Server.uploadToAppwrite english japanese).

Lemma returns_log msg : returns (within E) (log msg).
Proof.
  intros st. eexists _, _. split; [apply log_run|]. apply E_refl.
Qed.

Lemma returns_console_error args : returns (within E) (console_error args).
Proof.
  intros st. eexists _, _. split; [apply console_error_run|]. apply E_refl.
Qed.

Lemma settles_call {A} (f : Env -> Settled A * Env) :
  (forall env, E env (snd (f env))) -> settles (within E) (call f).
Proof.
  intros Hf st. eexists. split; [|rewrite call_run].
  2: { destruct (fst (f (outside st))) as [a|e]; simpl;
       [left; exists a | right; exists e]; reflexivity. }
  apply Hf.
Qed.

Lemma returns_parse text :
  returns (within E) (lift (MonitorServer.parseVocabulary text)).
Proof.
  intros st. unfold lift. rewrite server_parseVocabulary_value.
  eexists _, _. split; [reflexivity|]. apply E_refl.
Qed.

Lemma returns_getLastTweetId : returns (within E) Server.getLastTweetId.
Proof.
  apply (returns_try_catch (within E) within_trans).
  - apply (settles_abind (within E) within_trans).
    + apply returns_settles. intros st. eexists _, _. split; [reflexivity|apply within_refl].
    + intros b. apply settles_if.
      * apply (settles_abind (within E) within_trans); [now apply settles_call|].
        intros a. apply returns_settles. now apply (returns_aret (within E) within_refl).
      * apply returns_settles. now apply (returns_aret (within E) within_refl).
  - intros e. apply (returns_abind (within E) within_trans); [apply returns_console_error|].
    intros _. now apply (returns_aret (within E) within_refl).
Qed.

Lemma returns_saveLastTweetId id : returns (within E) (Server.saveLastTweetId id).
Proof.
  apply (returns_try_catch (within E) within_trans).
  - now apply settles_call.
  - intros e. apply returns_console_error.
Qed.

Lemma returns_fetchRecentTweets sinceId :
  returns (within E) (Server.fetchRecentTweets sinceId).
Proof.
  apply (returns_try_catch (within E) within_trans).
  - apply (settles_abind (within E) within_trans); [now apply settles_call|].
    intros response. apply settles_if.
    + apply (settles_abind (within E) within_trans); [now apply (settles_await (within E) within_refl)|].
      intros a. now apply (settles_athrow (within E) within_refl).
    + apply (settles_abind (within E) within_trans); [now apply (settles_await (within E) within_refl)|].
      intros a. apply returns_settles. now apply (returns_aret (within E) within_refl).
  - intros e. apply (returns_abind (within E) within_trans); [apply returns_console_error|].
    intros _. now apply (returns_aret (within E) within_refl).
Qed.

Lemma returns_process_tweet tweet c : returns (within E) (Server.process_tweet tweet c).
Proof.
  unfold Server.process_tweet.
  apply (returns_abind (within E) within_trans); [apply returns_log|]. intros _.
  apply (returns_abind (within E) within_trans); [apply returns_parse|]. intros [v|].
  - apply (returns_abind (within E) within_trans).
    + apply (returns_abind (within E) within_trans); [apply upload_within|].
      intros result.
      repeat apply returns_if; now apply (returns_aret (within E) within_refl).
    + intros c'.
      apply (returns_abind (within E) within_trans); [apply returns_saveLastTweetId|].
      intros _. now apply (returns_aret (within E) within_refl).
  - apply (returns_abind (within E) within_trans).
    + apply (returns_abind (within E) within_trans); [apply returns_log|].
      intros _. now apply (returns_aret (within E) within_refl).
    + intros c'.
      apply (returns_abind (within E) within_trans); [apply returns_saveLastTweetId|].
      intros _. now apply (returns_aret (within E) within_refl).
Qed.

Lemma returns_process_tweets tweets : forall c,
  returns (within E) (Server.process_tweets tweets c).
Proof.
  induction tweets as [|tweet rest IH]; intros c; simpl.
  - now apply (returns_aret (within E) within_refl).
  - apply (returns_abind (within E) within_trans); [apply returns_process_tweet|].
    intros c'. apply IH.
Qed.

Lemma returns_monitorTweets : returns (within E) Server.monitorTweets.
Proof.
  unfold Server.monitorTweets.
  apply (returns_abind (within E) within_trans).
  { intros st. unfold call_total. pose proof (E_now (outside st)) as HE.
    destruct (Date_now (outside st)) as [t env]. eexists _, _.
    split; [reflexivity|exact HE]. }
  intros now. apply (returns_abind (within E) within_trans); [apply returns_log|]. intros _.
  apply (returns_abind (within E) within_trans); [apply returns_getLastTweetId|]. intros lastTweetId.
  apply (returns_abind (within E) within_trans); [apply returns_fetchRecentTweets|]. intros tweets.
  apply returns_if; [apply returns_log|].
  apply (returns_abind (within E) within_trans); [apply returns_log|]. intros _.
  apply (returns_abind (within E) within_trans); [apply returns_process_tweets|]. intros c.
  apply returns_log.
Qed.

End Invariant.

(** *** Running the steps *)

Lemma abind_resolved {A B} (m : Async A) (f : A -> Async B) st a st1 :
  m st = (Resolved a, st1) -> abind m f st = f a st1.
Proof. unfold abind. now intros ->. Qed.

Lemma machine_eta (st : Machine) : mkMachine (outside st) (world st) (stderr st) = st.
Proof. now destruct st. Qed.

Lemma lift_parse_run text st :
  lift (MonitorServer.parseVocabulary text) st
  = (Resolved (server_value (cleanText text)), st).
Proof.
  unfold lift. rewrite server_parseVocabulary_value. now rewrite machine_eta.
Qed.

Lemma status_exists_not_uploaded : string_eqb (js "exists") (js "uploaded") = false.
Proof. reflexivity. Qed.

Lemma string_eqb_refl s : string_eqb s s = true.
Proof. induction s; simpl; [reflexivity|]. now rewrite N.eqb_refl. Qed.

Lemma string_eqb_eq a : forall b, string_eqb a b = true -> a = b.
Proof.
  induction a as [|x a IH]; intros [|y b]; simpl; try discriminate; auto.
  intros Hb. apply andb_true_iff in Hb as [Hx Hr].
  apply N.eqb_eq in Hx. subst. f_equal. auto.
Qed.

Lemma uploadToAppwrite_run english japanese st :
  let db := Server.databaseId (Server.appwrite Server.CONFIG) in
  let coll := Server.collectionId (Server.appwrite Server.CONFIG) in
  let listing := listDocuments db coll [Query_equal (js "english") english] (outside st) in
  let creation := createDocument db coll (mkPair english japanese) (snd listing) in
  exists result st',
    Server.uploadToAppwrite english japanese st = (Resolved result, st') /\
    outside st' = match fst listing with
                  | Fulfilled O => snd creation
                  | _ => snd listing
                  end.
Proof.
  intros db coll listing creation.
  unfold Server.uploadToAppwrite, try_catch, abind. rewrite call_run.
  fold db coll listing.
  destruct (fst listing) as [[|total]|e]; cbn [settle Nat.ltb Nat.leb].
  - rewrite call_run. cbn [outside]. fold creation.
    destruct (fst creation) as [[]|e]; cbn [settle].
    + rewrite log_run. eexists _, _. split; reflexivity.
    + rewrite console_error_run. eexists _, _. split; reflexivity.
  - rewrite log_run. eexists _, _. split; reflexivity.
  - rewrite console_error_run. eexists _, _. split; reflexivity.
Qed.

(** X13: [uploadToAppwrite] never throws. Its status is [exists] when the
    listing found the term, and then nothing is created; it is [uploaded]
    when the listing found nothing and the creation went through; it is
    [error], with the message of the exception, when either call
    failed. *)
Theorem uploadToAppwrite_result english japanese st :
  let db := Server.databaseId (Server.appwrite Server.CONFIG) in
  let coll := Server.collectionId (Server.appwrite Server.CONFIG) in
  let listing := listDocuments db coll [Query_equal (js "english") english] (outside st) in
  let creation := createDocument db coll (mkPair english japanese) (snd listing) in
  exists result st',
    Server.uploadToAppwrite english japanese st = (Resolved result, st') /\
    match fst listing with
    | Fulfilled (S _) =>
        result = Server.mkResult (js "exists") None /\ outside st' = snd listing
    | Fulfilled O =>
        outside st' = snd creation /\
        match fst creation with
        | Fulfilled _ => result = Server.mkResult (js "uploaded") None
        | Failed e => result = Server.mkResult (js "error") (Some (err_message e))
        end
    | Failed e =>
        result = Server.mkResult (js "error") (Some (err_message e)) /\
        outside st' = snd listing
    end.
Proof.
  intros db coll listing creation.
  unfold Server.uploadToAppwrite, try_catch, abind. rewrite call_run.
  fold db coll listing.
  destruct (fst listing) as [[|total]|e]; cbn [settle Nat.ltb Nat.leb].
  - rewrite call_run. cbn [outside]. fold creation.
    destruct (fst creation) as [[]|e]; cbn [settle].
    + rewrite log_run. eexists _, _. split; [reflexivity|]. split; reflexivity.
    + rewrite console_error_run. eexists _, _. split; [reflexivity|]. split; reflexivity.
  - rewrite log_run. eexists _, _. split; [reflexivity|]. split; reflexivity.
  - rewrite console_error_run. eexists _, _. split; [reflexivity|]. split; reflexivity.
Qed.

Lemma returns_uploadToAppwrite english japanese :
  returns (within anything) (Server.uploadToAppwrite english japanese).
Proof.
  intros st.
  destruct (uploadToAppwrite_run english japanese st) as (r & st' & E & _).
  exists r, st'. split; [exact E|exact I].
Qed.

(** X14: when the tweets of an answer carry their [id] and [text], a poll
    never throws and never ends the process, whatever the file system and
    the database do and however the request to the Twitter API ends: a
    failed request, a status that is not ok, a body that does not parse, an
    answer without [data] or any list of such tweets. *)
Theorem monitorTweets_total st :
  exists st', Server.monitorTweets st = (Resolved tt, st').
Proof.
  destruct (returns_monitorTweets anything) with (st := st) as ([] & st' & E & _);
    try (intros; exact I).
  - apply returns_uploadToAppwrite.
  - eauto.
Qed.

Lemma saveLastTweetId_run id st :
  exists st', Server.saveLastTweetId id st = (Resolved tt, st') /\ world st' = world st.
Proof.
  unfold Server.saveLastTweetId, try_catch. rewrite call_run.
  destruct (fst (fs_writeFileSync _ id (outside st))) as [[]|e]; cbn [settle].
  - eexists. split; reflexivity.
  - rewrite console_error_run. eexists. split; reflexivity.
Qed.

Lemma abind_assoc {A B C} (m : Async A) (f : A -> Async B) (g : B -> Async C) st :
  abind (abind m f) g st = abind m (fun a => abind (f a) g) st.
Proof.
  unfold abind. destruct (m st) as [[a|e|c] st1]; reflexivity.
Qed.

Lemma abind_aret {A B} (a : A) (f : A -> Async B) st : abind (aret a) f st = f a st.
Proof. reflexivity. Qed.

Lemma call_total_run {A} (f : Env -> A * Env) st :
  call_total f st
  = (Resolved (fst (f (outside st))),
     mkMachine (snd (f (outside st))) (world st) (stderr st)).
Proof. unfold call_total. now destruct (f (outside st)). Qed.

(** What the body of the loop does to the counters; the state it leaves is
    one [saveLastTweetId] leaves. *)
Lemma process_tweet_post (P : Machine -> Prop) tweet c st :
  (forall st0, exists st',
      Server.saveLastTweetId (tweet_id tweet) st0 = (Resolved tt, st') /\ P st') ->
  exists c' st',
    Server.process_tweet tweet c st = (Resolved c', st') /\ P st' /\
    match server_value (cleanText (tweet_text tweet)) with
    | None =>
        c' = Server.mkCounts (Server.uploadCount c) (Server.existsCount c)
               (S (Server.skipCount c))
    | Some _ =>
        c' = c \/
        c' = Server.mkCounts (S (Server.uploadCount c)) (Server.existsCount c)
               (Server.skipCount c) \/
        c' = Server.mkCounts (Server.uploadCount c) (S (Server.existsCount c))
               (Server.skipCount c)
    end.
Proof.
  intros Hsave. unfold Server.process_tweet.
  erewrite abind_resolved by apply log_run.
  erewrite abind_resolved by apply lift_parse_run.
  destruct (server_value (cleanText (tweet_text tweet))) as [v|]; cbv beta iota.
  - rewrite abind_assoc.
    match goal with
    | |- context [mkMachine ?a ?b ?c] => set (st1 := mkMachine a b c)
    end.
    destruct (uploadToAppwrite_run (english v) (japanese v) st1)
      as (result & st2 & E & _).
    erewrite abind_resolved by exact E.
    destruct (Hsave st2) as (st3 & E3 & HP).
    destruct (string_eqb (Server.status result) (js "uploaded"));
      [|destruct (string_eqb (Server.status result) (js "exists"))];
      rewrite abind_aret; erewrite abind_resolved by exact E3;
      eexists _, _; (split; [reflexivity|]); auto.
  - rewrite abind_assoc. erewrite abind_resolved by apply log_run.
    rewrite abind_aret.
    match goal with
    | |- context [mkMachine ?a ?b ?c] => set (st1 := mkMachine a b c)
    end.
    destruct (Hsave st1) as (st3 & E3 & HP).
    erewrite abind_resolved by exact E3. eexists _, _. split; [reflexivity|]. auto.
Qed.

Lemma process_tweet_run tweet c st :
  exists c' st',
    Server.process_tweet tweet c st = (Resolved c', st') /\
    match server_value (cleanText (tweet_text tweet)) with
    | None =>
        c' = Server.mkCounts (Server.uploadCount c) (Server.existsCount c)
               (S (Server.skipCount c))
    | Some _ =>
        c' = c \/
        c' = Server.mkCounts (S (Server.uploadCount c)) (Server.existsCount c)
               (Server.skipCount c) \/
        c' = Server.mkCounts (Server.uploadCount c) (S (Server.existsCount c))
               (Server.skipCount c)
    end.
Proof.
  destruct (process_tweet_post (fun _ => True) tweet c st) as (c' & st' & E & _ & Hc).
  - intros st0. destruct (saveLastTweetId_run (tweet_id tweet) st0) as (st' & E & _).
    eauto.
  - eauto.
Qed.







(** *** The cursor *)

Section Cursor.

(** [saved] reads the id file; a write of the id file goes through and is
    kept; the Twitter API answers every request with tweets, [newest]
    first. *)
Variable saved : Env -> option jsstring.
Variable response : Response.
Variable newest : Tweet.
Variable older : list Tweet.

Hypothesis write_saved :
  forall id env, exists env',
    fs_writeFileSync (Server.lastTweetIdFile Server.CONFIG) id env = (Fulfilled tt, env') /\
    saved env' = Some id.
Hypothesis answer_ok : resp_ok response = true.
Hypothesis answer_json :
  resp_json response = Fulfilled (mkTweetsData (Some (newest :: older))).
Hypothesis fetch_answers :
  forall url headers env, fst (fetch url headers env) = Fulfilled response.

Lemma saveLastTweetId_saved id st :
  exists st',
    Server.saveLastTweetId id st = (Resolved tt, st') /\ saved (outside st') = Some id.
Proof.
  unfold Server.saveLastTweetId, try_catch. rewrite call_run.
  destruct (write_saved id (outside st)) as (env' & E & Hs). rewrite E.
  eexists. split; [reflexivity|exact Hs].
Qed.

Lemma process_tweets_saved l t : forall c st,
  exists c' st',
    Server.process_tweets (l ++ [t]) c st = (Resolved c', st') /\
    saved (outside st') = Some (tweet_id t).
Proof.
  induction l as [|x l IH]; intros c st; simpl.
  - destruct (process_tweet_post (fun s => saved (outside s) = Some (tweet_id t)) t c st)
      as (c' & st' & E & HP & _).
    + intros st0. apply saveLastTweetId_saved.
    + erewrite abind_resolved by exact E. exists c', st'. auto.
  - destruct (process_tweet_run x c st) as (c1 & st1 & E1 & _).
    erewrite abind_resolved by exact E1. apply IH.
Qed.

Lemma fetchRecentTweets_answered sinceId st :
  exists st', Server.fetchRecentTweets sinceId st = (Resolved (newest :: older), st').
Proof.
  unfold Server.fetchRecentTweets, try_catch, abind. rewrite call_run.
  rewrite fetch_answers. cbn [settle]. rewrite answer_ok. cbn [negb].
  unfold await. rewrite answer_json. cbn [settle]. eexists. reflexivity.
Qed.

(** X18: with a file system that keeps what is written, a poll that gets
    tweets leaves in the id file the id of the first tweet of the answer,
    the newest: the tweets are handled last to first, and the id is saved
    after each. *)
Theorem monitorTweets_saves_newest st :
  exists st',
    Server.monitorTweets st = (Resolved tt, st') /\
    saved (outside st') = Some (tweet_id newest).
Proof.
  unfold Server.monitorTweets.
  erewrite abind_resolved by apply call_total_run.
  erewrite abind_resolved by apply log_run.
  match goal with
  | |- context [mkMachine ?a ?b ?c] => set (st1 := mkMachine a b c)
  end.
  destruct (getLastTweetId_run st1) as (r & st2 & E2).
  erewrite abind_resolved by exact E2.
  destruct (fetchRecentTweets_answered r st2) as (st3 & E3).
  erewrite abind_resolved by exact E3.
  cbn [length Nat.eqb].
  erewrite abind_resolved by apply log_run.
  match goal with
  | |- context [mkMachine ?a ?b ?c] => set (st4 := mkMachine a b c)
  end.
  cbn [rev].
  destruct (process_tweets_saved (rev older) newest (Server.mkCounts 0 0 0) st4)
    as (c' & st5 & E5 & Hs).
  erewrite abind_resolved by exact E5.
  rewrite log_run. eexists. split; [reflexivity|exact Hs].
Qed.

End Cursor.

(** *** The collection *)

Lemma NoDup_snoc {A} (l : list A) x : NoDup l -> ~ In x l -> NoDup (l ++ [x]).
Proof.
  induction l as [|y l IH]; simpl; intros Hl Hx.
  - constructor; [tauto|constructor].
  - inversion Hl as [|? ? Hy Hl']; subst. constructor.
    + intros Hin. apply in_app_or in Hin as [Hin|[->|[]]]; tauto.
    + apply IH; tauto.
Qed.

Section Collection.

(** [documents] reads the collection. The listing leaves it as it is and
    finds the documents of a term when there are some; the creation adds
    its document at most; no other call touches it. These hypotheses speak
    of the collection before and after each awaited call, so they say that
    the poll has the collection to itself: a second poll that creates a
    document while this one waits for its listing, or between its listing
    and its creation, makes [list_keeps] or [create_adds] false. *)
Variable documents : Env -> list VocabularyPair.

Hypothesis list_keeps :
  forall db coll queries env,
    documents (snd (listDocuments db coll queries env)) = documents env.
Hypothesis list_none :
  forall db coll term env,
    fst (listDocuments db coll [Query_equal (js "english") term] env) = Fulfilled O ->
    forall d, In d (documents env) -> english d <> term.
Hypothesis create_adds :
  forall db coll p env,
    documents (snd (createDocument db coll p env)) = documents env \/
    documents (snd (createDocument db coll p env)) = documents env ++ [p].
Hypothesis read_keeps :
  forall path env, documents (snd (fs_readFileSync path env)) = documents env.
Hypothesis write_keeps :
  forall path content env,
    documents (snd (fs_writeFileSync path content env)) = documents env.
Hypothesis fetch_keeps :
  forall url headers env, documents (snd (fetch url headers env)) = documents env.
Hypothesis now_keeps :
  forall env, documents (snd (Date_now env)) = documents env.

Lemma upload_distinct term translation :
  returns (within (distinct_kept documents)) (Server.uploadToAppwrite term translation).
Proof.
  intros st.
  destruct (uploadToAppwrite_run term translation st) as (r & st' & E & Hr).
  exists r, st'. split; [exact E|]. unfold within, distinct_kept.
  cbv zeta in Hr.
  set (db := Server.databaseId (Server.appwrite Server.CONFIG)) in *.
  set (coll := Server.collectionId (Server.appwrite Server.CONFIG)) in *.
  set (listing := listDocuments db coll [Query_equal (js "english") term] (outside st)) in *.
  pose proof (list_keeps db coll [Query_equal (js "english") term] (outside st)) as Hk.
  fold listing in Hk.
  destruct (fst listing) as [[|total]|e] eqn:El.
  - rewrite Hr.
    destruct (create_adds db coll (mkPair term translation) (snd listing)) as [-> | ->];
      rewrite Hk; [auto|].
    intros Hnd. rewrite map_app. apply NoDup_snoc; [exact Hnd|].
    cbn [map english]. intros Hin. apply in_map_iff in Hin as (d & Hd & Hin).
    exact (list_none db coll term (outside st) El d Hin Hd).
  - rewrite Hr. now rewrite Hk.
  - rewrite Hr. now rewrite Hk.
Qed.

(** X19: a poll that runs with the collection to itself adds no term
    twice. Under the hypotheses of the section, which exclude any change of
    the collection during an awaited call other than the call's own (so no
    other poll or writer acts between a listing and the creation that
    follows it), a collection with distinct terms has distinct terms after
    the poll, also when several tweets of the answer give the same term. *)
Theorem monitorTweets_keeps_distinct st :
  NoDup (map english (documents (outside st))) ->
  exists st',
    Server.monitorTweets st = (Resolved tt, st') /\
    NoDup (map english (documents (outside st'))).
Proof.
  intros Hnd.
  destruct (returns_monitorTweets (distinct_kept documents)) with (st := st)
    as ([] & st' & E & HR).
  - intros env. unfold distinct_kept. auto.
  - intros a b c Hab Hbc. unfold distinct_kept in *. auto.
  - intros path env. unfold distinct_kept. now rewrite read_keeps.
  - intros path content env. unfold distinct_kept. now rewrite write_keeps.
  - intros url headers env. unfold distinct_kept. now rewrite fetch_keeps.
  - intros env. unfold distinct_kept. now rewrite now_keeps.
  - apply upload_distinct.
  - exists st'. split; [exact E|]. now apply HR.
Qed.

End Collection.

End ServerProperties.

(** *** Runs on the outside kept in memory *)

Lemma memory_found_none queries docs d :
  length (Memory.found queries docs) = 0%nat -> In d docs ->
  forallb (Memory.matches d) queries = false.
Proof.
  unfold Memory.found. intros Hl Hd.
  destruct (forallb (Memory.matches d) queries) eqn:E; [|reflexivity].
  assert (Hin : In d (filter (fun d => forallb (Memory.matches d) queries) docs))
    by (apply filter_In; auto).
  destruct (filter _ docs); [destruct Hin|discriminate].
Qed.

Lemma monitorTweets_saves_newest_witness :
  let O := Memory.outside all_set two_tweets in
  exists st',
    @Server.monitorTweets O (start cat_known) = (Resolved tt, st') /\
    Memory.lookup (js "./last_tweet_id.txt") (Memory.files (outside st')) = Some (js "102").
Proof.
  intros O.
  apply (@monitorTweets_saves_newest O
           (fun env => Memory.lookup (js "./last_tweet_id.txt") (Memory.files env))
           (mkResponse true 200 (Fulfilled [])
              (Fulfilled
                 (mkTweetsData
                    (Some [ mkTweet (js "102") (js "dog 犬 #n5");
                            mkTweet (js "101") (js "@eitangos cat 猫") ]))))
           (mkTweet (js "102") (js "dog 犬 #n5"))
           [mkTweet (js "101") (js "@eitangos cat 猫")]).
  - intros id env. eexists. split; reflexivity.
  - reflexivity.
  - reflexivity.
  - intros url headers env. reflexivity.
Defined.

Lemma monitorTweets_keeps_distinct_witness :
  let O := Memory.outside all_set two_tweets in
  NoDup (map english (Memory.collection cat_known)) /\
  (exists st',
     @Server.monitorTweets O (start cat_known) = (Resolved tt, st') /\
     NoDup (map english (Memory.collection (outside st')))) /\
  Memory.collection (outside (snd (@Server.monitorTweets O (start cat_known))))
  = [mkPair (js "cat") (js "猫"); mkPair (js "dog") (js "犬")].
Proof.
  intros O. split; [repeat constructor; simpl; tauto|]. split; [|reflexivity].
  apply (@monitorTweets_keeps_distinct O Memory.collection).
  - intros db coll queries env. reflexivity.
  - intros db coll term env Hl d Hd Heq. simpl in Hl. injection Hl as Hl.
    pose proof (memory_found_none _ _ d Hl Hd) as Hm.
    simpl in Hm. rewrite Heq, string_eqb_refl in Hm. discriminate.
  - intros db coll p env. right. reflexivity.
  - intros path env. simpl. now destruct (Memory.lookup path (Memory.files env)).
  - intros path content env. reflexivity.
  - intros url headers env. reflexivity.
  - intros env. reflexivity.
  - repeat constructor; simpl; tauto.
Defined.

(** ** The handler *)

Section AsyncPost.

Context `{Outside}.

Lemma returns_with_settles {A} (Q : A -> Prop) m : returns_with Q m -> settles_with Q m.
Proof.
  intros Hm st. destruct (Hm st) as (a & st' & E & HQ). exists st'. left. eauto.
Qed.

Lemma returns_with_aret {A} (Q : A -> Prop) a : Q a -> returns_with Q (aret a).
Proof. intros HQ st. exists a, st. auto. Qed.

Lemma settles_with_athrow {A} (Q : A -> Prop) e : settles_with Q (athrow e).
Proof. intros st. exists st. right. exists e. reflexivity. Qed.

Lemma settles_with_abind {A B} (P : A -> Prop) (Q : B -> Prop) m (f : A -> Async B) :
  settles_with P m -> (forall a, P a -> settles_with Q (f a)) ->
  settles_with Q (abind m f).
Proof.
  intros Hm Hf st. destruct (Hm st) as (st1 & [(a & E & HP)|(e & E)]).
  - destruct (Hf a HP st1) as (st2 & Hres). exists st2.
    unfold abind. now rewrite E.
  - exists st1. right. exists e. unfold abind. now rewrite E.
Qed.

Lemma returns_with_abind {A B} (P : A -> Prop) (Q : B -> Prop) m (f : A -> Async B) :
  returns_with P m -> (forall a, P a -> returns_with Q (f a)) ->
  returns_with Q (abind m f).
Proof.
  intros Hm Hf st. destruct (Hm st) as (a & st1 & E & HP).
  destruct (Hf a HP st1) as (b & st2 & E2 & HQ). exists b, st2.
  unfold abind. rewrite E. auto.
Qed.

Lemma returns_with_try_catch {A} (Q : A -> Prop) m handler :
  settles_with Q m -> (forall e, returns_with Q (handler e)) ->
  returns_with Q (try_catch m handler).
Proof.
  intros Hm Hh st. destruct (Hm st) as (st1 & [(a & E & HQ)|(e & E)]).
  - exists a, st1. unfold try_catch. rewrite E. auto.
  - destruct (Hh e st1) as (a & st2 & E2 & HQ). exists a, st2.
    unfold try_catch. rewrite E. auto.
Qed.

Lemma returns_with_log msg : returns_with any (log msg).
Proof. intros st. eexists _, _. split; [apply log_run|exact I]. Qed.

Lemma returns_with_console_error args : returns_with any (console_error args).
Proof. intros st. eexists _, _. split; [apply console_error_run|exact I]. Qed.

Lemma returns_with_call_total {A} (f : Env -> A * Env) : returns_with any (call_total f).
Proof. intros st. eexists _, _. split; [apply call_total_run|exact I]. Qed.

Lemma settles_with_call {A} (f : Env -> Settled A * Env) : settles_with any (call f).
Proof.
  intros st. eexists. rewrite call_run.
  destruct (fst (f (outside st))) as [a|e]; cbn [settle];
    [left; exists a | right; exists e]; auto. split; [reflexivity|exact I].
Qed.

Lemma settles_with_await {A} (p : Settled A) : settles_with any (await p).
Proof.
  intros st. exists st. unfold await.
  destruct p as [a|e]; cbn [settle]; [left; exists a | right; exists e]; auto.
  split; [reflexivity|exact I].
Qed.

Lemma returns_with_parse version text :
  returns_with any (lift (Handler.parseVocabulary version text)).
Proof.
  intros st. unfold lift. destruct version; cbn [Handler.parseVocabulary].
  - rewrite first_parseVocabulary_run. eexists _, _. split; [reflexivity|exact I].
  - rewrite parseVocabulary_run. eexists _, _. split; [reflexivity|exact I].
Qed.

End AsyncPost.

Section HandlerProperties.

Context `{Outside}.

Variable JSON_stringify : Handler.Body -> jsstring.
Variable version : Handler.Version.

Ltac status_eval :=
  repeat match goal with
         | |- context [has_status (js ?a) (Handler.mkResult ?x ?y (js ?b) ?z)] =>
             let v := eval vm_compute in (string_eqb (js b) (js a)) in
             change (has_status (js a) (Handler.mkResult x y (js b) z)) with v
         end;
  cbn [length app Nat.add].

Lemma tally_skip n u s e rs :
  tally_of n (Handler.mkTally u s e rs) -> tally_of (S n) (Handler.mkTally u (S s) e rs).
Proof.
  unfold tally_of. cbn [Handler.uploadedCount Handler.skippedCount Handler.errorCount
                        Handler.results]. lia.
Qed.

Lemma tally_add n u s e rs term translation status err :
  tally_of n (Handler.mkTally u s e rs) ->
  (status = js "existing" -> tally_of (S n)
     (Handler.mkTally u (S s) e (rs ++ [Handler.mkResult term translation status err]))) /\
  (status = js "uploaded" -> tally_of (S n)
     (Handler.mkTally (S u) s e (rs ++ [Handler.mkResult term translation status err]))) /\
  (status = js "error" -> tally_of (S n)
     (Handler.mkTally u s (S e) (rs ++ [Handler.mkResult term translation status err]))).
Proof.
  unfold tally_of. cbn [Handler.uploadedCount Handler.skippedCount Handler.errorCount
                        Handler.results].
  intros Ht. split; [|split]; intros ->; rewrite ?filter_app, ?length_app;
    cbn [filter]; status_eval; lia.
Qed.

Lemma returns_process_tweet_tally tweet n t :
  tally_of n t ->
  returns_with (tally_of (S n)) (Handler.process_tweet version tweet t).
Proof.
  intros Ht. destruct t as [u s e rs]. unfold Handler.process_tweet.
  cbn [Handler.uploadedCount Handler.skippedCount Handler.errorCount Handler.results].
  apply (returns_with_abind any).
  { destruct version; [now apply returns_with_aret | apply returns_with_log]. }
  intros _ _. apply (returns_with_abind any); [apply returns_with_parse|].
  intros [parsed|] _.
  - apply (returns_with_abind any); [apply returns_with_log|]. intros _ _.
    apply returns_with_try_catch.
    + apply (settles_with_abind any); [apply settles_with_call|]. intros existing _.
      destruct (Nat.ltb 0 existing).
      * apply returns_with_settles.
        apply (returns_with_abind any); [apply returns_with_log|]. intros _ _.
        apply returns_with_aret. now apply tally_add.
      * apply (settles_with_abind any); [apply settles_with_call|]. intros _ _.
        apply returns_with_settles.
        apply (returns_with_abind any); [apply returns_with_log|]. intros _ _.
        apply returns_with_aret. now apply tally_add.
    + intros err.
      apply (returns_with_abind any); [apply returns_with_console_error|]. intros _ _.
      apply returns_with_aret. now apply tally_add.
  - apply (returns_with_abind any); [apply returns_with_log|]. intros _ _.
    apply returns_with_aret. now apply tally_skip.
Qed.

Lemma returns_process_tweets_tally tweets : forall n t,
  tally_of n t ->
  returns_with (tally_of (n + length tweets)) (Handler.process_tweets version tweets t).
Proof.
  induction tweets as [|tweet rest IH]; intros n t Ht; simpl.
  - replace (n + 0)%nat with n by lia. now apply returns_with_aret.
  - apply (returns_with_abind (tally_of (S n)));
      [now apply returns_process_tweet_tally|].
    intros t' Ht'. replace (n + S (length rest))%nat with (S n + length rest)%nat by lia.
    now apply IH.
Qed.

Lemma tally_zero : tally_of 0 (Handler.mkTally 0 0 0 []).
Proof. unfold tally_of. simpl. lia. Qed.

(** What the handler does with a fresh response object. *)
Lemma handler_post req res :
  Handler.body res = None ->
  returns_with (answered res) (Handler.handler JSON_stringify version req res).
Proof.
  intros Hfresh. unfold Handler.handler. cbv zeta.
  set (res2 := Handler.setHeader _ _ (Handler.setHeader _ _ res)).
  assert (Hh : Handler.headers res2
               = Handler.headers res
                 ++ [ (js "Access-Control-Allow-Origin", js "*");
                      (js "Access-Control-Allow-Methods", js "GET, POST, OPTIONS") ]).
  { unfold res2, Handler.setHeader. cbn [Handler.headers]. now rewrite <- app_assoc. }
  destruct (string_eqb (Handler.method req) (js "OPTIONS")).
  { apply returns_with_aret. unfold answered.
    cbn [Handler.end_ Handler.status Handler.sent Handler.headers Handler.body
         Handler.statusCode].
    unfold res2 at 2. cbn [Handler.setHeader Handler.body]. rewrite Hfresh. auto. }
  apply (returns_with_abind any); [apply returns_with_log|]. intros _ _.
  apply returns_with_try_catch.
  - apply (settles_with_abind any).
    { destruct (negb _ || negb _);
        [apply settles_with_athrow | now apply returns_with_settles, returns_with_aret]. }
    intros _ _. apply (settles_with_abind any).
    { destruct (negb _ || negb _ || negb _ || negb _);
        [apply settles_with_athrow | now apply returns_with_settles, returns_with_aret]. }
    intros _ _.
    apply (settles_with_abind any); [apply returns_with_settles, returns_with_log|].
    intros _ _. apply (settles_with_abind any); [apply settles_with_call|].
    intros response _. destruct (resp_ok response); cbn [negb].
    + apply (settles_with_abind any); [apply settles_with_await|]. intros tweetsData _.
      apply (settles_with_abind any); [apply returns_with_settles, returns_with_log|].
      intros _ _.
      destruct (tweets_data tweetsData) as [[|tweet rest]|].
      * apply returns_with_settles, returns_with_aret. unfold answered.
        cbn [Handler.json Handler.status Handler.sent Handler.headers Handler.body
             Handler.statusCode]. auto.
      * apply (settles_with_abind any); [apply settles_with_call|]. intros _ _.
        apply returns_with_settles.
        apply (returns_with_abind any); [apply returns_with_log|]. intros _ _.
        apply (returns_with_abind (tally_of (0 + length (tweet :: rest))));
          [apply returns_process_tweets_tally, tally_zero|].
        intros t Ht.
        apply (returns_with_abind any); [apply returns_with_call_total|]. intros now _.
        apply (returns_with_abind any); [apply returns_with_log|]. intros _ _.
        apply returns_with_aret. unfold answered.
        cbn [Handler.json Handler.status Handler.sent Handler.headers Handler.body
             Handler.statusCode].
        destruct t. auto.
      * apply returns_with_settles, returns_with_aret. unfold answered.
        cbn [Handler.json Handler.status Handler.sent Handler.headers Handler.body
             Handler.statusCode]. auto.
    + apply (settles_with_abind any); [apply settles_with_await|]. intros errorText _.
      apply (settles_with_abind any);
        [apply returns_with_settles, returns_with_console_error|].
      intros _ _. destruct (resp_status response =? 429).
      * apply returns_with_settles.
        apply (returns_with_abind any); [apply returns_with_call_total|]. intros now _.
        apply returns_with_aret. unfold answered.
        cbn [Handler.json Handler.status Handler.sent Handler.headers Handler.body
             Handler.statusCode]. auto.
      * apply settles_with_athrow.
  - intros err.
    apply (returns_with_abind any); [apply returns_with_console_error|]. intros _ _.
    apply (returns_with_abind any); [apply returns_with_call_total|]. intros now _.
    apply returns_with_aret. unfold answered.
    cbn [Handler.json Handler.status Handler.sent Handler.headers Handler.body
         Handler.statusCode]. auto.
Qed.

(** X20: the handler answers every request, and never throws: from a fresh
    response object it returns the response sent, with the two CORS headers
    added and the status 200, 429 or 500, whatever the Twitter API and the
    database do. *)
Theorem handler_answers req res st :
  Handler.body res = None ->
  exists res' st',
    Handler.handler JSON_stringify version req res st = (Resolved res', st') /\
    Handler.sent res' = true /\
    Handler.headers res' = Handler.headers (with_cors res) /\
    (Handler.statusCode res' = Some 200 \/ Handler.statusCode res' = Some 429 \/
     Handler.statusCode res' = Some 500).
Proof.
  intros Hfresh.
  destruct (handler_post req res Hfresh st) as (res' & st' & E & Hs & Hh & Hb).
  exists res', st'. split; [exact E|]. split; [exact Hs|]. split.
  - rewrite Hh. unfold with_cors, Handler.setHeader. cbn [Handler.headers].
    now rewrite <- app_assoc.
  - destruct (Handler.body res') as [[| | |]|]; tauto.
Qed.

(** X21: the summary the handler sends adds up: uploaded, skipped and
    errors sum to the number of tweets checked; the results hold one entry
    with status [uploaded] for each upload and one with status [error] for
    each error, and no more entries than tweets. *)
Theorem handler_summary_adds_up req res st res' st'
    success timestamp username tweetsChecked uploaded skipped errors results :
  Handler.body res = None ->
  Handler.handler JSON_stringify version req res st = (Resolved res', st') ->
  Handler.body res'
  = Some (Handler.Summary success timestamp username tweetsChecked uploaded skipped
            errors results) ->
  (uploaded + skipped + errors = tweetsChecked)%nat /\
  length (filter (has_status (js "uploaded")) results) = uploaded /\
  length (filter (has_status (js "error")) results) = errors /\
  (length results <= tweetsChecked)%nat /\
  Handler.statusCode res' = Some 200.
Proof.
  intros Hfresh E Hbody.
  destruct (handler_post req res Hfresh st) as (res1 & st1 & E1 & _ & _ & Hb).
  rewrite E in E1. injection E1 as <- <-. rewrite Hbody in Hb.
  destruct Hb as (Hstatus & _ & Hsum & Hu & He & Hx & Hl).
  cbn [Handler.uploadedCount Handler.skippedCount Handler.errorCount Handler.results] in *.
  repeat split; auto; lia.
Qed.

(** X22: an [OPTIONS] request is answered at once with status 200 and no
    body: nothing is logged, no request is sent and nothing is stored. *)
Theorem handler_options req res st :
  Handler.method req = js "OPTIONS" ->
  Handler.handler JSON_stringify version req res st
  = (Resolved (Handler.end_ (Handler.status 200 (with_cors res))), st).
Proof.
  intros Hm. unfold Handler.handler. rewrite Hm, string_eqb_refl. reflexivity.
Qed.

(** X23: when a credential is missing or empty, a request other than
    [OPTIONS] is answered with status 500 and the message of the missing
    group, without any request to the Twitter API or to the database: the
    outside is touched by the reading of the clock only. *)
Theorem handler_missing_credentials req res st :
  string_eqb (Handler.method req) (js "OPTIONS") = false ->
  credentials Handler.CONFIG = false ->
  exists message st',
    Handler.handler JSON_stringify version req res st
    = (Resolved
         (Handler.json
            (Handler.Fatal message (toISOString (fst (Date_now (outside st)))) false)
            (Handler.status 500 (with_cors res))),
       st') /\
    (message = js "Missing Twitter credentials" \/
     message = js "Missing Appwrite credentials") /\
    outside st' = snd (Date_now (outside st)).
Proof.
  intros Hm Hc. unfold Handler.handler. rewrite Hm.
  erewrite abind_resolved by apply log_run.
  unfold try_catch. unfold abind at 1.
  destruct (negb (truthy_opt (Handler.twitterBearerToken Handler.CONFIG))
            || negb (truthy_opt (Handler.twitterUserId Handler.CONFIG))) eqn:E1.
  - cbn [athrow]. erewrite abind_resolved by apply console_error_run.
    erewrite abind_resolved by apply call_total_run.
    eexists _, _. split; [reflexivity|]. split; [now left|reflexivity].
  - cbn [aret]. unfold abind at 1.
    destruct (negb (truthy_opt (Handler.projectId Handler.CONFIG))
              || negb (truthy_opt (Handler.apiKey Handler.CONFIG))
              || negb (truthy_opt (Handler.databaseId Handler.CONFIG))
              || negb (truthy_opt (Handler.collectionId Handler.CONFIG))) eqn:E2.
    + cbn [athrow]. erewrite abind_resolved by apply console_error_run.
      erewrite abind_resolved by apply call_total_run.
      eexists _, _. split; [reflexivity|]. split; [now right|reflexivity].
    + exfalso. unfold credentials in Hc.
      destruct (truthy_opt (Handler.twitterBearerToken Handler.CONFIG)),
        (truthy_opt (Handler.twitterUserId Handler.CONFIG)),
        (truthy_opt (Handler.projectId Handler.CONFIG)),
        (truthy_opt (Handler.apiKey Handler.CONFIG)),
        (truthy_opt (Handler.databaseId Handler.CONFIG)),
        (truthy_opt (Handler.collectionId Handler.CONFIG)); discriminate.
Qed.

(** *** The collection *)

Section HandlerCollection.

(** As for the server, the hypotheses on the collection say that the request
    is served alone: they fail when another request creates a document
    between a listing and the creation that follows it. *)
Variable documents : Env -> list VocabularyPair.

Hypothesis list_keeps :
  forall db coll queries env,
    documents (snd (listDocuments db coll queries env)) = documents env.
Hypothesis list_none :
  forall db coll term env,
    fst (listDocuments db coll [Query_equal (js "english") term] env) = Fulfilled O ->
    forall d, In d (documents env) -> english d <> term.
Hypothesis create_adds :
  forall db coll p env,
    documents (snd (createDocument db coll p env)) = documents env \/
    documents (snd (createDocument db coll p env)) = documents env ++ [p].
Hypothesis fetch_keeps :
  forall url headers env, documents (snd (fetch url headers env)) = documents env.
Hypothesis client_keeps :
  forall endpoint project key env,
    documents (snd (new_Databases endpoint project key env)) = documents env.
Hypothesis now_keeps :
  forall env, documents (snd (Date_now env)) = documents env.

Lemma distinct_refl env : distinct_kept documents env env.
Proof. unfold distinct_kept. auto. Qed.

Lemma distinct_trans a b c :
  distinct_kept documents a b -> distinct_kept documents b c ->
  distinct_kept documents a c.
Proof. unfold distinct_kept. auto. Qed.

Lemma distinct_same a b : documents b = documents a -> distinct_kept documents a b.
Proof. unfold distinct_kept. now intros ->. Qed.

Let R := within (distinct_kept documents).

Lemma R_refl st : R st st.
Proof. apply distinct_refl. Qed.

Lemma R_trans a b c : R a b -> R b c -> R a c.
Proof. apply distinct_trans. Qed.

Lemma returns_handler_parse text :
  returns R (lift (Handler.parseVocabulary version text)).
Proof.
  intros st. unfold lift. destruct version; cbn [Handler.parseVocabulary].
  - rewrite first_parseVocabulary_run. eexists _, _.
    split; [reflexivity|apply distinct_refl].
  - rewrite parseVocabulary_run. eexists _, _.
    split; [reflexivity|apply distinct_refl].
Qed.

Lemma returns_call_total_now : returns R (call_total Date_now).
Proof.
  intros st. eexists _, _. split; [apply call_total_run|].
  apply distinct_same. cbn [outside]. apply now_keeps.
Qed.

Lemma returns_handler_process_tweet tweet t :
  returns R (Handler.process_tweet version tweet t).
Proof.
  unfold Handler.process_tweet.
  apply (returns_abind R R_trans).
  { destruct version;
      [apply (returns_aret R R_refl) | apply (returns_log _ distinct_refl)]. }
  intros _. apply (returns_abind R R_trans); [apply returns_handler_parse|].
  intros [parsed|].
  - apply (returns_abind R R_trans); [apply (returns_log _ distinct_refl)|]. intros _.
    intros st. unfold try_catch, abind. rewrite call_run.
    set (db := Handler.databaseId Handler.CONFIG).
    set (coll := Handler.collectionId Handler.CONFIG).
    set (listing := listDocuments db coll [Query_equal (js "english") (english parsed)]
                      (outside st)).
    pose proof (list_keeps db coll [Query_equal (js "english") (english parsed)]
                  (outside st)) as Hk.
    fold listing in Hk.
    destruct (fst listing) as [[|total]|e] eqn:El; cbn [settle Nat.ltb Nat.leb].
    + rewrite call_run. cbn [outside].
      set (creation := createDocument db coll
                         (mkPair (english parsed) (japanese parsed)) (snd listing)).
      assert (Hc : distinct_kept documents (outside st) (snd creation)).
      { unfold distinct_kept.
        destruct (create_adds db coll (mkPair (english parsed) (japanese parsed))
                    (snd listing)) as [Hd|Hd];
          fold creation in Hd; rewrite Hd, Hk; [auto|].
        intros Hnd. rewrite map_app. apply NoDup_snoc; [exact Hnd|].
        cbn [map english]. intros Hin. apply in_map_iff in Hin as (d & Hd' & Hin).
        exact (list_none db coll (english parsed) (outside st) El d Hin Hd'). }
      destruct (fst creation) as [[]|e]; cbn [settle].
      * rewrite log_run. eexists _, _. split; [reflexivity|exact Hc].
      * rewrite console_error_run. eexists _, _. split; [reflexivity|exact Hc].
    + rewrite log_run. eexists _, _. split; [reflexivity|]. now apply distinct_same.
    + rewrite console_error_run. eexists _, _. split; [reflexivity|].
      now apply distinct_same.
  - apply (returns_abind R R_trans); [apply (returns_log _ distinct_refl)|]. intros _.
    apply (returns_aret R R_refl).
Qed.

Lemma returns_handler_process_tweets tweets : forall t,
  returns R (Handler.process_tweets version tweets t).
Proof.
  induction tweets as [|tweet rest IH]; intros t; simpl.
  - apply (returns_aret R R_refl).
  - apply (returns_abind R R_trans); [apply returns_handler_process_tweet|].
    intros t'. apply IH.
Qed.

Lemma returns_handler req res :
  returns R (Handler.handler JSON_stringify version req res).
Proof.
  unfold Handler.handler. cbv zeta.
  destruct (string_eqb (Handler.method req) (js "OPTIONS"));
    [apply (returns_aret R R_refl)|].
  apply (returns_abind R R_trans); [apply (returns_log _ distinct_refl)|]. intros _.
  apply (returns_try_catch R R_trans).
  - apply (settles_abind R R_trans).
    { destruct (negb _ || negb _);
        [apply (settles_athrow R R_refl)
        | apply returns_settles, (returns_aret R R_refl)]. }
    intros _. apply (settles_abind R R_trans).
    { destruct (negb _ || negb _ || negb _ || negb _);
        [apply (settles_athrow R R_refl)
        | apply returns_settles, (returns_aret R R_refl)]. }
    intros _.
    apply (settles_abind R R_trans);
      [apply returns_settles, (returns_log _ distinct_refl)|].
    intros _. apply (settles_abind R R_trans).
    { apply settles_call. intros env. apply distinct_same, fetch_keeps. }
    intros response. destruct (resp_ok response); cbn [negb].
    + apply (settles_abind R R_trans); [apply (settles_await R R_refl)|].
      intros tweetsData.
      apply (settles_abind R R_trans);
        [apply returns_settles, (returns_log _ distinct_refl)|].
      intros _.
      destruct (tweets_data tweetsData) as [[|tweet rest]|].
      * apply returns_settles, (returns_aret R R_refl).
      * apply (settles_abind R R_trans).
        { apply settles_call. intros env. apply distinct_same, client_keeps. }
        intros _. apply returns_settles.
        apply (returns_abind R R_trans); [apply (returns_log _ distinct_refl)|].
        intros _.
        apply (returns_abind R R_trans); [apply returns_handler_process_tweets|].
        intros t.
        apply (returns_abind R R_trans); [apply returns_call_total_now|]. intros now.
        apply (returns_abind R R_trans); [apply (returns_log _ distinct_refl)|].
        intros _. apply (returns_aret R R_refl).
      * apply returns_settles, (returns_aret R R_refl).
    + apply (settles_abind R R_trans); [apply (settles_await R R_refl)|].
      intros errorText.
      apply (settles_abind R R_trans);
        [apply returns_settles, (returns_console_error _ distinct_refl)|].
      intros _. destruct (resp_status response =? 429).
      * apply returns_settles.
        apply (returns_abind R R_trans); [apply returns_call_total_now|]. intros now.
        apply (returns_aret R R_refl).
      * apply (settles_athrow R R_refl).
  - intros err.
    apply (returns_abind R R_trans); [apply (returns_console_error _ distinct_refl)|].
    intros _.
    apply (returns_abind R R_trans); [apply returns_call_total_now|]. intros now.
    apply (returns_aret R R_refl).
Qed.

(** X24: a request that is served with the collection to itself adds no
    term twice. Under the hypotheses of the section, which exclude any
    change of the collection during an awaited call other than the call's
    own (so no other request acts between a listing and the creation that
    follows it), a collection with distinct terms has distinct terms after
    the request, whatever the tweets are. *)
Theorem handler_keeps_distinct req res st :
  NoDup (map english (documents (outside st))) ->
  exists res' st',
    Handler.handler JSON_stringify version req res st = (Resolved res', st') /\
    NoDup (map english (documents (outside st'))).
Proof.
  intros Hnd. destruct (returns_handler req res st) as (res' & st' & E & HR).
  exists res', st'. split; [exact E|]. now apply HR.
Qed.

End HandlerCollection.

End HandlerProperties.

(** *** Runs of the handler on the outside kept in memory *)

Lemma handler_answers_witness :
  let O := Memory.outside all_set two_tweets in
  Handler.body fresh = None /\
  exists res' st',
    @Handler.handler O stringify Handler.Second get_request fresh (@start O cat_known)
    = (Resolved res', st') /\
    Handler.sent res' = true /\
    Handler.headers res' = Handler.headers (with_cors fresh) /\
    (Handler.statusCode res' = Some 200 \/ Handler.statusCode res' = Some 429 \/
     Handler.statusCode res' = Some 500).
Proof.
  intros O. split; [reflexivity|].
  apply (@handler_answers O stringify Handler.Second get_request fresh (@start O cat_known)).
  reflexivity.
Defined.

Lemma handler_summary_adds_up_witness :
  let O := Memory.outside all_set two_tweets in
  let run := @Handler.handler O stringify Handler.Second get_request fresh
               (@start O cat_known) in
  let results :=
    [ Handler.mkResult (js "dog") (js "犬") (js "uploaded") None;
      Handler.mkResult (js "cat") (js "猫") (js "existing") None ] in
  let summary :=
    Handler.Summary true (js "1970-01-01T00:00:00.000Z") (js "x") 2 1 1 0 results in
  run = (Resolved (Handler.json summary (Handler.status 200 (with_cors fresh))), snd run) /\
  (1 + 1 + 0 = 2)%nat /\
  length (filter (has_status (js "uploaded")) results) = 1%nat /\
  length (filter (has_status (js "error")) results) = 0%nat /\
  (length results <= 2)%nat /\
  Handler.statusCode (Handler.json summary (Handler.status 200 (with_cors fresh)))
  = Some 200.
Proof.
  intros O run results summary.
  assert (Hrun : run = (Resolved (Handler.json summary (Handler.status 200 (with_cors fresh))),
                        snd run)) by (vm_compute; reflexivity).
  split; [exact Hrun|].
  exact (@handler_summary_adds_up O stringify Handler.Second get_request fresh
           (@start O cat_known)
           (Handler.json summary (Handler.status 200 (with_cors fresh))) (snd run)
           true (js "1970-01-01T00:00:00.000Z") (js "x") 2%nat 1%nat 1%nat 0%nat results
           eq_refl Hrun eq_refl).
Defined.

Lemma handler_options_witness :
  let O := Memory.outside all_set two_tweets in
  Handler.method options_request = js "OPTIONS" /\
  @Handler.handler O stringify Handler.Second options_request fresh (@start O cat_known)
  = (Resolved (Handler.end_ (Handler.status 200 (with_cors fresh))), start cat_known).
Proof.
  intros O. split; [reflexivity|].
  apply (@handler_options O stringify Handler.Second options_request fresh
           (@start O cat_known)).
  reflexivity.
Defined.

Lemma handler_missing_credentials_witness :
  let O := Memory.outside none_set two_tweets in
  let st := @start O cat_known in
  credentials (@Handler.CONFIG O) = false /\
  exists message st',
    @Handler.handler O stringify Handler.Second get_request fresh st
    = (Resolved
         (Handler.json
            (Handler.Fatal message (@toISOString O (fst (@Date_now O (outside st)))) false)
            (Handler.status 500 (with_cors fresh))),
       st') /\
    (message = js "Missing Twitter credentials" \/
     message = js "Missing Appwrite credentials") /\
    outside st' = snd (@Date_now O (outside st)).
Proof.
  intros O st.
  assert (Hc : credentials (@Handler.CONFIG O) = false) by (vm_compute; reflexivity).
  assert (Hm : string_eqb (Handler.method get_request) (js "OPTIONS") = false)
    by (vm_compute; reflexivity).
  split; [exact Hc|].
  exact (@handler_missing_credentials O stringify Handler.Second get_request fresh st
           Hm Hc).
Defined.

Lemma handler_keeps_distinct_witness :
  let O := Memory.outside all_set two_tweets in
  NoDup (map english (Memory.collection cat_known)) /\
  (exists res' st',
     @Handler.handler O stringify Handler.First get_request fresh (@start O cat_known)
     = (Resolved res', st') /\
     NoDup (map english (Memory.collection (outside st')))) /\
  Memory.collection
    (outside (snd (@Handler.handler O stringify Handler.First get_request fresh
                     (@start O cat_known))))
  = [mkPair (js "cat") (js "猫"); mkPair (js "dog") (js "犬")].
Proof.
  intros O. split; [repeat constructor; simpl; tauto|]. split; [|reflexivity].
  apply (@handler_keeps_distinct O stringify Handler.First Memory.collection).
  - intros db coll queries env. reflexivity.
  - intros db coll term env Hl d Hd Heq. simpl in Hl. injection Hl as Hl.
    pose proof (memory_found_none _ _ d Hl Hd) as Hm.
    simpl in Hm. rewrite Heq, string_eqb_refl in Hm. discriminate.
  - intros db coll p env. right. reflexivity.
  - intros url headers env. reflexivity.
  - intros endpoint project key env. reflexivity.
  - intros env. reflexivity.
  - repeat constructor; simpl; tauto.
Defined.

(** ** The upload of the sample data *)

Section UploadProperties.

Context `{Outside}.

Lemma upload_item_run item c st :
  exists c' st',
    UploadSampleData.upload_item item c st = (Resolved c', st') /\
    (c' = c \/
     c' = UploadSampleData.mkCounts (S (UploadSampleData.successCount c))
            (UploadSampleData.errorCount c) \/
     c' = UploadSampleData.mkCounts (UploadSampleData.successCount c)
            (S (UploadSampleData.errorCount c))).
Proof.
  unfold UploadSampleData.upload_item, try_catch, abind. rewrite call_run.
  destruct (fst (createDocument _ _ _ (outside st))) as [[]|e]; cbn [settle].
  - rewrite log_run. eexists _, _. split; [reflexivity|]. auto.
  - destruct (err_code e) as [code|].
    + destruct (N.eq_dec code 409) as [->|Hne].
      * rewrite log_run. eexists _, _. split; [reflexivity|]. auto.
      * assert (E : forall (A : Type) (x y : A),
                   match code with 409 => x | _ => y end = y).
        { intros A x y. destruct code as [|p]; [reflexivity|].
          do 9 (destruct p as [p|p|]; try reflexivity). congruence. }
        rewrite E, console_error_run. eexists _, _. split; [reflexivity|]. auto.
    + rewrite console_error_run. eexists _, _. split; [reflexivity|]. auto.
Qed.

Lemma upload_items_returns items : forall c st,
  exists c' st', UploadSampleData.upload_items items c st = (Resolved c', st').
Proof.
  induction items as [|item rest IH]; intros c st.
  - exists c, st. reflexivity.
  - destruct (upload_item_run item c st) as (c1 & st1 & E1 & _).
    destruct (IH c1 st1) as (c' & st' & E').
    exists c', st'. simpl UploadSampleData.upload_items.
    erewrite abind_resolved by exact E1. exact E'.
Qed.


(** X26: the upload script always ends with exit code 0: every failure of
    an upload is caught in the loop, so the handler of fatal errors, with
    its exit code 1, is never reached. *)
Theorem main_exits_zero st :
  exists st', UploadSampleData.main st = (Exited 0, st').
Proof.
  unfold UploadSampleData.main, UploadSampleData.uploadData, try_catch.
  rewrite !abind_assoc.
  erewrite abind_resolved by apply log_run.
  match goal with
  | |- context [mkMachine ?a ?b ?c] => set (st1 := mkMachine a b c)
  end.
  destruct (upload_items_returns UploadSampleData.sampleData
              (UploadSampleData.mkCounts 0 0) st1) as (c & st2 & E).
  rewrite abind_assoc. erewrite abind_resolved by exact E.
  repeat (rewrite abind_assoc; erewrite abind_resolved by apply log_run).
  erewrite abind_resolved by apply log_run.
  unfold process_exit. eexists. reflexivity.
Qed.

End UploadProperties.

(** ** The test of the connection *)

Section ConnectionProperties.

Context `{Outside}.

(** X27: [testConnection] never throws: it answers [true] exactly when the
    listing of the collection succeeds and [false] when it fails, writing to
    the standard error in that case only; it asks for one listing and
    nothing else, so the outside is left as the listing left it. *)
Theorem testConnection_answer st :
  let listing :=
    listDocuments (Server.databaseId (Server.appwrite Server.CONFIG))
      (Server.collectionId (Server.appwrite Server.CONFIG)) [Query_limit 1]
      (outside st) in
  exists connected st',
    Server.testConnection st = (Resolved connected, st') /\
    outside st' = snd listing /\
    match fst listing with
    | Fulfilled _ => connected = true /\ stderr st' = stderr st
    | Failed _ => connected = false /\ stderr st' <> stderr st
    end.
Proof.
  intros listing. unfold Server.testConnection, try_catch.
  unfold abind at 1. rewrite log_run.
  unfold abind at 1. rewrite call_run. cbn [outside world stderr].
  fold listing.
  destruct (fst listing) as [total|e]; cbn [settle].
  - unfold abind. rewrite log_run. cbn [outside world stderr]. rewrite log_run.
    eexists _, _. split; [reflexivity|]. cbn [outside stderr]. auto.
  - unfold abind. rewrite console_error_run.
    eexists _, _. split; [reflexivity|]. cbn [outside stderr].
    split; [reflexivity|]. split; [reflexivity|].
    intros E. apply (f_equal (@length _)) in E. simpl in E.
    try rewrite length_app in E. simpl in E. lia.
Qed.

End ConnectionProperties.
